(** * jrpc2: server dispatch core, framing catalogue and LSP framing

    A shallow embedding of the Go sources

      - [jrpc2] server   (NewServer, Start, nextRequest, dispatch, Stop,
                          Wait, stop, read, pushError, send, versionOK,
                          tasks.responses) and the server options,
      - [chanutil]       (Framing and the [framings] table),
      - [channel]        (LSP.Recv over a buffered reader),

    followed by the properties established about them.

    Conventions.  A Go [string] and a [json.RawMessage] are Rocq strings
    (sequences of bytes); a nil [json.RawMessage] is [None].  State held
    behind the server mutex is a record that each operation transforms; one
    operation of the model is one critical section of the source.  A Go
    panic is an explicit outcome.  Log lines have no effect on the state and
    are left out. *)

From Stdlib Require Import ZArith List Bool Lia Ascii String DecimalNat DecimalFacts.
From stdpp Require Import base tactics option list strings gmap sets.

Local Open Scope Z_scope.

(* ===================================================================== *)
(** ** Package jrpc2 *)
(* ===================================================================== *)

Module Jrpc2.

(** Modelled from the spec: the numeric error codes of the error taxonomy
    (the file that declares [Code] and its constants is not in the sources
    at hand). *)
Definition E_ParseError : Z := -32700.
Definition E_InvalidRequest : Z := -32600.
Definition E_MethodNotFound : Z := -32601.
Definition E_InvalidParams : Z := -32602.
Definition E_InternalError : Z := -32603.

(** Modelled from the spec: the version marker every response carries. *)
Definition Version : string := "2.0".

(** The text of an error message: a format and its arguments as handed to
    [Errorf] / [jerrorf], or the canonical name of a code ([code.Error()]). *)
Inductive message :=
| Sprintf (format : string) (args : list string)
| CodeName (c : Z).

(** [*Error]: the structured error of the package. *)
Record Error := mkError { code : Z; msg : message; data : option string }.

Definition Errorf (c : Z) (format : string) (args : list string) : Error :=
  mkError c (Sprintf format args) None.

(** The dynamic types of the error values the server can meet. *)
Inductive errkind :=
| KEOF                   (* io.EOF *)
| KServerStopped         (* ErrServerStopped *)
| KUnmarshalTypeError    (* *json.UnmarshalTypeError *)
| KUnsupportedTypeError  (* *json.UnsupportedTypeError *)
| KSyntaxError           (* *json.SyntaxError *)
| KOther.                (* any other error value *)

Inductive goerror :=
| EError (e : Error)                    (* *Error *)
| ECode (c : Z)                         (* Code *)
| EPlain (k : errkind) (text : string). (* everything else, with its Error() text *)

Definition io_EOF : goerror := EPlain KEOF "EOF".
Definition ErrServerStopped : goerror := EPlain KServerStopped "the server has been stopped".

(** Wire forms. *)
Record jrequest := mkJrequest {
  V  : string;          (* "jsonrpc" *)
  ID : option string;   (* "id"; None is a nil RawMessage *)
  M  : string;          (* "method" *)
  P  : string           (* "params" *)
}.
Definition jrequests := list jrequest.

Record jerror := mkJerror { jcode : Z; jmsg : message; jdata : option string }.

Definition jerrorf (c : Z) (format : string) (args : list string) : jerror :=
  mkJerror c (Sprintf format args) None.

Definition tojerror (e : Error) : jerror := mkJerror (code e) (msg e) (data e).

Record jresponse := mkJresponse {
  rV  : string;
  rID : option string;
  rE  : option jerror;
  rR  : option string
}.
Definition jresponses := list jresponse.

(** The request a handler sees. *)
Record Request := mkRequest {
  id : option string;
  method : string;
  params : string
}.

(** [context.Context], as far as the server is concerned. *)
Inductive Context :=
| Background
| UserContext (label : string).

(** What a handler hands back as its value: [json.Marshal] either renders
    it or reports an error. *)
Inductive govalue :=
| Value (json : string)
| BadValue (e : goerror).

Definition json_Marshal (v : govalue) : option string * option goerror :=
  match v with
  | Value j => (Some j, None)
  | BadValue e => (None, Some e)
  end.

(** The three ways [m.Call(ctx, req)] can end. *)
Inductive callres :=
| CallOk (v : govalue)
| CallErr (e : goerror)
| CallPanic (what : string).

Definition Method := Context -> Request -> callres.

(** [Assigner]: [Assign] returns nil ([None]) for an unknown name. *)
Definition Assigner := string -> option Method.

Definition Conn := nat.
Definition Writer := string.

Record Server := mkServer {
  mux    : Assigner;
  sem    : Z;                     (* capacity of the semaphore *)
  allow1 : bool;
  log    : option Writer;         (* None: the default, discarding logger *)
  reqctx : Request -> Context;
  closer : option Conn;
  err    : option goerror;
  inq    : list jrequests;        (* front of the queue first *)
  used   : gset string;
  (* effects on the outside world *)
  wire       : list jresponses;   (* arguments of outq.Encode, oldest first *)
  closes     : nat;               (* calls of closer.Close() *)
  broadcasts : nat                (* calls of work.Broadcast() *)
}.

Definition set_allow1 (b : bool) (s : Server) : Server :=
  mkServer (mux s) (sem s) b (log s) (reqctx s) (closer s) (err s) (inq s)
           (used s) (wire s) (closes s) (broadcasts s).
Definition set_sem (n : Z) (s : Server) : Server :=
  mkServer (mux s) n (allow1 s) (log s) (reqctx s) (closer s) (err s) (inq s)
           (used s) (wire s) (closes s) (broadcasts s).
Definition set_log (w : option Writer) (s : Server) : Server :=
  mkServer (mux s) (sem s) (allow1 s) w (reqctx s) (closer s) (err s) (inq s)
           (used s) (wire s) (closes s) (broadcasts s).
Definition set_reqctx (f : Request -> Context) (s : Server) : Server :=
  mkServer (mux s) (sem s) (allow1 s) (log s) f (closer s) (err s) (inq s)
           (used s) (wire s) (closes s) (broadcasts s).
Definition set_inq (q : list jrequests) (s : Server) : Server :=
  mkServer (mux s) (sem s) (allow1 s) (log s) (reqctx s) (closer s) (err s) q
           (used s) (wire s) (closes s) (broadcasts s).
Definition set_used (u : gset string) (s : Server) : Server :=
  mkServer (mux s) (sem s) (allow1 s) (log s) (reqctx s) (closer s) (err s)
           (inq s) u (wire s) (closes s) (broadcasts s).
Definition set_wire (w : list jresponses) (s : Server) : Server :=
  mkServer (mux s) (sem s) (allow1 s) (log s) (reqctx s) (closer s) (err s)
           (inq s) (used s) w (closes s) (broadcasts s).
Definition broadcast (s : Server) : Server :=
  mkServer (mux s) (sem s) (allow1 s) (log s) (reqctx s) (closer s) (err s)
           (inq s) (used s) (wire s) (closes s) (S (broadcasts s)).

(** *** opts.go *)

Definition ServerOption := Server -> Server.

Definition ServerLog (w : Writer) : ServerOption := set_log (Some w).

Definition AllowV1 (ok : bool) : ServerOption := set_allow1 ok.

Definition Concurrency (n : Z) : ServerOption :=
  let n := if n <? 1 then 1 else n in
  set_sem n.

Definition ReqContext (f : Request -> Context) : ServerOption := set_reqctx f.

(** *** NewServer *)

Inductive outcome (A : Type) :=
| Panic (what : string)
| Ok (a : A).
Arguments Panic {A} what.
Arguments Ok {A} a.

Definition NewServer (mux : option Assigner) (opts : list ServerOption)
  : outcome Server :=
  match mux with
  | None => Panic "nil assigner"
  | Some mux =>
      let s := mkServer mux 1 false None (fun _ => Background)
                        None None [] ∅ [] 0%nat 0%nat in
      Ok (fold_left (fun s opt => opt s) opts s)
  end.

(** *** NewServer, on any arguments *)

(** [ServerOption] above is an option by its effect: a function that is
    there and returns.  What a caller can pass in its place is wider: nil,
    or a function that changes the server or panics. *)
Definition option_func := option (Server -> outcome Server).

Definition returning (o : ServerOption) : option_func :=
  Some (fun s => Ok (o s)).

(** [opt(s)]: the call of a nil function panics. *)
Definition call_option (o : option_func) (s : Server) : outcome Server :=
  match o with
  | None => Panic "invalid memory address or nil pointer dereference"
  | Some f => f s
  end.

(** [for _, opt := range opts { opt(s) }] *)
Fixpoint apply_options (opts : list option_func) (s : Server) : outcome Server :=
  match opts with
  | [] => Ok s
  | o :: rest =>
      match call_option o s with
      | Panic what => Panic what
      | Ok s' => apply_options rest s'
      end
  end.

(** The server [NewServer] makes before it applies the options. *)
Definition new_server (mux : Assigner) : Server :=
  mkServer mux 1 false None (fun _ => Background) None None [] ∅ [] 0%nat 0%nat.

Definition NewServer_any (mux : option Assigner) (opts : list option_func)
  : outcome Server :=
  match mux with
  | None => Panic "nil assigner"
  | Some mux => apply_options opts (new_server mux)
  end.

(** *** Start *)

Definition Start (s : Server) (conn : Conn) : Server * option goerror :=
  match closer s with
  | Some _ => (s, Some (EPlain KOther "T is already started"))
  | None =>
      (mkServer (mux s) (sem s) (allow1 s) (log s) (reqctx s)
                (Some conn) None [] ∅ (wire s) (closes s) (broadcasts s),
       None)
  end.

(** *** stop, Stop, Wait *)

Definition stop (e : goerror) (s : Server) : Server :=
  match closer s with
  | None => s
  | Some _ =>
      mkServer (mux s) (sem s) (allow1 s) (log s) (reqctx s)
               None (Some e) (inq s) (used s) (wire s)
               (S (closes s)) (S (broadcasts s))
  end.

Definition Stop (s : Server) : Server := stop ErrServerStopped s.

(** [Wait], once both workers have returned: it clears [work] and [used]
    and returns [s.err]. *)
Definition Wait (s : Server) : Server * option goerror :=
  (set_used ∅ s, err s).

(** *** versionOK *)

Definition versionOK (s : Server) (v : string) : bool :=
  if String.eqb v "" then allow1 s else String.eqb v Version.

(** *** tasks *)

Record task := mkTask {
  m    : option Method;
  req  : jrequest;
  val  : option string;
  terr : option goerror
}.
Definition tasks := list task.

Definition failed (r : jrequest) (e : Error) : task :=
  mkTask None r None (Some (EError e)).

(** [string(req.ID)] *)
Definition id_string (r : jrequest) : string := default "" (ID r).

(** [stringset.Set.Add] with one argument: the set with the element, and
    whether the element was new. *)
Definition used_Add (u : gset string) (x : string) : gset string * bool :=
  (u ∪ {[ x ]}, bool_decide (x ∉ u)).

(** The body of the loop of [nextRequest] that resolves one request. *)
Definition resolve (s : Server) (u : gset string) (r : jrequest)
  : gset string * task :=
  if negb (versionOK s (V r)) then
    (u, failed r (Errorf E_InvalidRequest "incorrect version marker %q" [V r]))
  else
    let id := id_string r in
    let '(u', dup) :=
      if negb (String.eqb id "") then
        let '(u', added) := used_Add u id in (u', negb added)
      else (u, false) in
    if dup then
      (u', failed r (Errorf E_InvalidRequest "duplicate request id %q" [id]))
    else if String.eqb (M r) "" then
      (u', failed r (Errorf E_InvalidRequest "empty method name" []))
    else
      match mux s (M r) with
      | None =>
          (u', failed r (Errorf E_MethodNotFound "no such method %q" [M r]))
      | Some h => (u', mkTask (Some h) r None None)
      end.

Fixpoint resolve_all (s : Server) (u : gset string) (next : jrequests)
  : gset string * tasks :=
  match next with
  | [] => (u, [])
  | r :: rest =>
      let '(u1, t) := resolve s u r in
      let '(u2, ts) := resolve_all s u1 rest in
      (u2, t :: ts)
  end.

(** *** nextRequest: the part under the lock *)

Inductive next_result :=
| Waiting                                    (* s.work.Wait() *)
| Failed (e : option goerror)                (* return nil, s.err *)
| Next (s' : Server) (ts : tasks).           (* the closure over [tasks] *)

Definition nextRequest (s : Server) : next_result :=
  match closer s with
  | None => Failed (err s)
  | Some _ =>
      match inq s with
      | [] => Waiting
      | next :: q =>
          let '(u, ts) := resolve_all s (used s) next in
          Next (set_used u (set_inq q s)) ts
      end
  end.

(** *** dispatch *)

(** The calls [s.reqctx(req)] and [json.Marshal(v)] are taken to return;
    the handler is the one call here whose panic is followed. *)

Definition dispatch (s : Server) (h : Method) (r : Request)
  : outcome (option string * option goerror) :=
  match h (reqctx s r) r with
  | CallPanic what => Panic what
  | CallErr e =>
      match id r with
      | None => Ok (None, None)
      | Some _ => Ok (None, Some e)
      end
  | CallOk v => Ok (json_Marshal v)
  end.

(** One task of the closure returned by [nextRequest]. *)
Definition run_task (s : Server) (t : task) : outcome task :=
  match terr t with
  | Some _ => Ok t
  | None =>
      match m t with
      | None => Panic "nil method"
      | Some h =>
          match dispatch s h (mkRequest (ID (req t)) (M (req t)) (P (req t))) with
          | Panic what => Panic what
          | Ok (v, e) => Ok (mkTask (m t) (req t) v e)
          end
      end
  end.

Fixpoint run_tasks (s : Server) (ts : tasks) : outcome tasks :=
  match ts with
  | [] => Ok []
  | t :: rest =>
      match run_task s t with
      | Panic what => Panic what
      | Ok t' =>
          match run_tasks s rest with
          | Panic what => Panic what
          | Ok rest' => Ok (t' :: rest')
          end
      end
  end.

(** *** tasks.responses *)

Definition response_of (t : task) : option jresponse :=
  match ID (req t), terr t with
  | None, None => None
  | i, None => Some (mkJresponse Version i None (val t))
  | i, Some (EError e) => Some (mkJresponse Version i (Some (tojerror e)) None)
  | i, Some (ECode c) =>
      Some (mkJresponse Version i (Some (mkJerror c (CodeName c) None)) None)
  | i, Some (EPlain _ text) =>
      Some (mkJresponse Version i
              (Some (jerrorf E_InternalError "internal error: %v" [text])) None)
  end.

Fixpoint responses (ts : tasks) : jresponses :=
  match ts with
  | [] => []
  | t :: rest =>
      match response_of t with
      | None => responses rest
      | Some r => r :: responses rest
      end
  end.

(** *** send, pushError *)

Definition send (rsps : jresponses) (s : Server) : Server :=
  set_wire (wire s ++ [rsps]) s.

Definition pushError (i : option string) (e : jerror) (s : Server) : Server :=
  set_wire (wire s ++ [[mkJresponse Version i (Some e) None]]) s.

(** The closure returned by [nextRequest], run to completion. *)
Definition complete (s : Server) (ts : tasks) : outcome Server :=
  match run_tasks s ts with
  | Panic what => Panic what
  | Ok ts' =>
      let rsps := responses ts' in
      match rsps with
      | [] => Ok s
      | _ :: _ => Ok (send rsps s)
      end
  end.

(** *** isRecoverableJSONError, read *)

Definition isRecoverableJSONError (e : option goerror) : bool :=
  match e with
  | Some (EPlain KUnmarshalTypeError _) => true
  | Some (EPlain KUnsupportedTypeError _) => true
  | _ => false
  end.

(** What [dec.Decode(&in)] leaves behind: the error and the value of [in]. *)
Record decoded := mkDecoded { derr : option goerror; din : jrequests }.

(** One turn of the loop of [read]; the boolean says whether the loop goes
    round again ([false] is the [break]). *)
Definition read_turn (d : decoded) (s : Server) : Server * bool :=
  if isRecoverableJSONError (derr d) then
    (pushError None (jerrorf E_ParseError "invalid JSON request message" []) s,
     true)
  else
    match derr d with
    | Some e => (stop e s, false)
    | None =>
        match din d with
        | [] =>
            (pushError None (jerrorf E_InvalidRequest "empty request batch" []) s,
             true)
        | _ :: _ => (broadcast (set_inq (inq s ++ [din d]) s), true)
        end
    end.

(** After the loop: [s.inq = nil]. *)
Definition read_exit (s : Server) : Server := set_inq [] s.

(** [read] over the decoder's successive results.  The loop only ends on an
    error, so a stream that runs dry before one leaves the reader blocked
    in [Decode]: the state so far, and [false]. *)
Fixpoint read (ds : list decoded) (s : Server) : Server * bool :=
  match ds with
  | [] => (s, false)
  | d :: rest =>
      let '(s', again) := read_turn d s in
      if again then read rest s' else (read_exit s', true)
  end.

End Jrpc2.

(* ===================================================================== *)
(** ** Package channel: the framings and the LSP channel *)
(* ===================================================================== *)

Module Channel.

(** The framings [chanutil] refers to; [Header t] is [channel.Header(t)]. *)
Inductive Framing :=
| Chunked
| Decimal
| Line
| LSP
| RawJSON
| Varint
| Header (t : string).

(** Bytes, and the text of a Go string, as lists of characters. *)
Definition bytes := list ascii.

Definition B (s : string) : bytes := list_ascii_of_string s.

Definition LF : ascii := "010"%char.
Definition CR : ascii := "013"%char.
Definition colon : ascii := ":"%char.

Inductive rerror :=
| EOF                          (* io.EOF *)
| ErrUnexpectedEOF             (* io.ErrUnexpectedEOF *)
| ReadError (text : string)    (* an error of the underlying reader *)
| InvalidHeaderLine            (* "invalid header line" *)
| MissingContentLength         (* "missing required content-length" *)
| InvalidContentLength         (* "invalid content-length: ..." *)
| NegativeContentLength.       (* "negative content-length" *)

(** What the underlying reader delivers, call by call: some bytes (fewer
    than asked for, possibly), or an error.  Past the end of the list every
    call reports [io.EOF].  The head [Data] also stands for what the
    buffered reader still holds. *)
Inductive event :=
| Data (bs : bytes)
| Fault (e : rerror).

Definition reader := list event.

Definition unread (bs : bytes) (rd : reader) : reader :=
  match bs with
  | [] => rd
  | _ :: _ => Data bs :: rd
  end.

(** The part of [bs] up to and including the first [LF], and the rest. *)
Fixpoint cut_line (bs : bytes) : option (bytes * bytes) :=
  match bs with
  | [] => None
  | c :: rest =>
      if Ascii.eqb c LF then Some ([c], rest)
      else match cut_line rest with
           | Some (pre, post) => Some (c :: pre, post)
           | None => None
           end
  end.

(** [bufio.Reader.ReadString('\n')], with [acc] what was gathered so far:
    the text read, the error, and the reader afterwards. *)
Fixpoint ReadString (acc : bytes) (rd : reader) : bytes * option rerror * reader :=
  match rd with
  | [] => (acc, Some EOF, [])
  | Fault e :: rest => (acc, Some e, rest)
  | Data bs :: rest =>
      match cut_line bs with
      | Some (pre, post) => (acc ++ pre, None, unread post rest)
      | None => ReadString (acc ++ bs) rest
      end
  end.

(** [bufio.Reader.Read] into a buffer of [n > 0] bytes: what the buffer
    holds, or else the result of one read of the underlying source. *)
Definition Read (n : nat) (rd : reader) : bytes * option rerror * reader :=
  match rd with
  | [] => ([], Some EOF, [])
  | Fault e :: rest => ([], Some e, rest)
  | Data bs :: rest => (take n bs, None, unread (drop n bs) rest)
  end.

(** [io.ReadFull] for [n] bytes still missing, [acc] already read: the loop
    of [io.ReadAtLeast] with [Read] above as its body. *)
Fixpoint ReadFull (n : nat) (acc : bytes) (rd : reader) : bytes * option rerror * reader :=
  match n with
  | O => (acc, None, rd)
  | S _ =>
      match rd with
      | [] => (acc, Some (match acc with [] => EOF | _ :: _ => ErrUnexpectedEOF end), [])
      | Fault e :: rest =>
          (acc,
           Some (match acc, e with
                 | _ :: _, EOF => ErrUnexpectedEOF
                 | _, _ => e
                 end),
           rest)
      | Data bs :: rest =>
          if (n <=? length bs)%nat
          then (acc ++ take n bs, None, unread (drop n bs) rest)
          else ReadFull (n - length bs) (acc ++ bs) rest
      end
  end.

(** [strings.TrimRight(s, "\r\n")] *)
Definition is_crlf (c : ascii) : bool := Ascii.eqb c CR || Ascii.eqb c LF.

Fixpoint drop_while (f : ascii -> bool) (bs : bytes) : bytes :=
  match bs with
  | [] => []
  | c :: rest => if f c then drop_while f rest else bs
  end.

Definition TrimRight (f : ascii -> bool) (bs : bytes) : bytes :=
  rev (drop_while f (rev bs)).

(** [strings.TrimSpace] removes the white space of Unicode at both ends of
    a string in UTF-8: the six of ASCII (tab, line feed, vertical tab, form
    feed, carriage return, space) and, in two bytes, U+0085 and U+00A0, in
    three bytes, U+1680, U+2000 to U+200A, U+2028, U+2029, U+202F, U+205F
    and U+3000. *)
Definition is_space (c : ascii) : bool :=
  let n := nat_of_ascii c in
  ((9 <=? n) && (n <=? 13) || (n =? 32))%nat.

Definition space2 (a b : ascii) : bool :=
  let x := nat_of_ascii a in
  let y := nat_of_ascii b in
  ((x =? 194) && ((y =? 133) || (y =? 160)))%nat.

Definition space3 (a b c : ascii) : bool :=
  let x := nat_of_ascii a in
  let y := nat_of_ascii b in
  let z := nat_of_ascii c in
  ((x =? 225) && (y =? 154) && (z =? 128)
   || (x =? 226) && (y =? 128)
      && ((128 <=? z) && (z <=? 138) || (z =? 168) || (z =? 169) || (z =? 175))
   || (x =? 226) && (y =? 129) && (z =? 159)
   || (x =? 227) && (y =? 128) && (z =? 128))%nat.

(** The white space at the front; with [back] set, the argument is a string
    read from its end, where the bytes of a character come last byte
    first. *)
Fixpoint trim_front (back : bool) (bs : bytes) : bytes :=
  match bs with
  | [] => []
  | c1 :: r1 =>
      if is_space c1 then trim_front back r1
      else
        match r1 with
        | [] => bs
        | c2 :: r2 =>
            if (if back then space2 c2 c1 else space2 c1 c2) then trim_front back r2
            else
              match r2 with
              | [] => bs
              | c3 :: r3 =>
                  if (if back then space3 c3 c2 c1 else space3 c1 c2 c3)
                  then trim_front back r3
                  else bs
              end
        end
  end.

Definition TrimSpace (bs : bytes) : bytes :=
  rev (trim_front true (rev (trim_front false bs))).

(** [strings.ToLower], on the letters of ASCII.  (A letter outside ASCII
    has no lower case in ASCII among the letters of [content-length], so
    that the comparison with that name is the same.) *)
Definition lower (c : ascii) : ascii :=
  let n := nat_of_ascii c in
  if ((65 <=? n) && (n <=? 90))%nat then ascii_of_nat (n + 32) else c.

Definition ToLower (bs : bytes) : bytes := map lower bs.

(** [strings.SplitN(s, ":", 2)]: two parts when there is a colon, cut at
    the first one ([Some]); the text itself as the only part when there is
    none ([None]). *)
Fixpoint SplitN2 (bs : bytes) : option (bytes * bytes) :=
  match bs with
  | [] => None
  | c :: rest =>
      if Ascii.eqb c colon then Some ([], rest)
      else match SplitN2 rest with
           | Some (name, value) => Some (c :: name, value)
           | None => None
           end
  end.

(** [strconv.Atoi] on a 64-bit [int]: an optional sign and one or more
    decimal digits whose value fits; [None] is any of its errors. *)
Definition digit (c : ascii) : option Z :=
  let n := nat_of_ascii c in
  if ((48 <=? n) && (n <=? 57))%nat then Some (Z.of_nat (n - 48)) else None.

Fixpoint digits (acc : Z) (bs : bytes) : option Z :=
  match bs with
  | [] => Some acc
  | c :: rest =>
      match digit c with
      | Some d => digits (10 * acc + d) rest
      | None => None
      end
  end.

Definition unsigned (bs : bytes) : option Z :=
  match bs with
  | [] => None
  | _ :: _ => digits 0 bs
  end.

Definition in_int (n : Z) : option Z :=
  if (- 2 ^ 63 <=? n) && (n <=? 2 ^ 63 - 1) then Some n else None.

Definition Atoi (bs : bytes) : option Z :=
  match bs with
  | [] => None
  | c :: rest =>
      if Ascii.eqb c "-"%char then
        match unsigned rest with Some n => in_int (- n) | None => None end
      else if Ascii.eqb c "+"%char then
        match unsigned rest with Some n => in_int n | None => None end
      else
        match unsigned bs with Some n => in_int n | None => None end
  end.

(** The result of [Recv]: the message and the reader afterwards, or the
    error. *)
Inductive received :=
| Message (data : bytes) (rd : reader)
| Error (e : rerror).

(** One turn of the header loop of [Recv]: an error to return, the end of
    the header block, or another turn. *)
Inductive turn :=
| Return (e : rerror)
| Break (h : gmap bytes bytes) (rd : reader)
| Continue (h : gmap bytes bytes) (rd : reader).

Definition header_turn (h : gmap bytes bytes) (rd : reader) : turn :=
  let '(raw, err, rd') := ReadString [] rd in
  let line := TrimRight is_crlf raw in
  let parsed :=
    match line with
    | [] => Some h
    | _ :: _ =>
        match SplitN2 line with
        | Some (name, value) => Some (<[ ToLower name := TrimSpace value ]> h)
        | None => None
        end
    end in
  match parsed with
  | None => Return InvalidHeaderLine
  | Some h' =>
      match err with
      | Some EOF => Break h' rd'
      | Some e => Return e
      | None =>
          match line with
          | [] => Break h' rd'
          | _ :: _ => Continue h' rd'
          end
      end
  end.

(** The header loop, for at most [fuel] turns; [None] when they are used
    up. *)
Fixpoint headers (fuel : nat) (h : gmap bytes bytes) (rd : reader)
  : option (rerror + gmap bytes bytes * reader) :=
  match fuel with
  | O => None
  | S fuel' =>
      match header_turn h rd with
      | Return e => Some (inl e)
      | Break h' rd' => Some (inr (h', rd'))
      | Continue h' rd' => headers fuel' h' rd'
      end
  end.

(** What follows the header loop in [Recv]. *)
Definition body (h : gmap bytes bytes) (rd : reader) : received :=
  match h !! B "content-length" with
  | None => Error MissingContentLength
  | Some clen =>
      match Atoi clen with
      | None => Error InvalidContentLength
      | Some size =>
          if size <? 0 then Error NegativeContentLength
          else
            match ReadFull (Z.to_nat size) [] rd with
            | (_, Some e, _) => Error e
            | (data, None, rd') => Message data rd'
            end
      end
  end.

(** Every turn that goes on has taken a line feed out of the reader, so
    one turn more than the reader holds bytes is enough. *)
Fixpoint pending (rd : reader) : nat :=
  match rd with
  | [] => 0
  | Data bs :: rest => length bs + pending rest
  | Fault _ :: rest => pending rest
  end.

Definition Recv_from (h : gmap bytes bytes) (rd : reader) : option received :=
  match headers (S (pending rd)) h rd with
  | None => None
  | Some (inl e) => Some (Error e)
  | Some (inr (h', rd')) => Some (body h' rd')
  end.

Definition Recv (rd : reader) : option received := Recv_from ∅ rd.

(** *** Recv, with the allocation of the buffer *)

(** [body] above takes [make([]byte, size)] to succeed.  The runtime
    refuses a length above its limit with a panic (makeslice: len out of
    range); the limit is 2^48 bytes on 64-bit Linux. *)
Definition maxAlloc : Z := 2 ^ 48.

(** What follows the header loop in [Recv], the allocation included. *)
Definition LSP_body (h : gmap bytes bytes) (rd : reader) : Jrpc2.outcome received :=
  match h !! B "content-length" with
  | None => Jrpc2.Ok (Error MissingContentLength)
  | Some clen =>
      match Atoi clen with
      | None => Jrpc2.Ok (Error InvalidContentLength)
      | Some size =>
          if size <? 0 then Jrpc2.Ok (Error NegativeContentLength)
          else if maxAlloc <? size then Jrpc2.Panic "makeslice: len out of range"
          else
            match ReadFull (Z.to_nat size) [] rd with
            | (_, Some e, _) => Jrpc2.Ok (Error e)
            | (data, None, rd') => Jrpc2.Ok (Message data rd')
            end
      end
  end.

Definition LSP_Recv_from (h : gmap bytes bytes) (rd : reader)
  : option (Jrpc2.outcome received) :=
  match headers (S (pending rd)) h rd with
  | None => None
  | Some (inl e) => Some (Jrpc2.Ok (Error e))
  | Some (inr (h', rd')) => Some (LSP_body h' rd')
  end.

(** [LSP.Recv] *)
Definition LSP_Recv (rd : reader) : option (Jrpc2.outcome received) :=
  LSP_Recv_from ∅ rd.

(** *** Send *)

(** [%d] of a length: its decimal digits. *)
Fixpoint uint_bytes (d : Decimal.uint) : bytes :=
  match d with
  | Decimal.Nil => []
  | Decimal.D0 d => "0"%char :: uint_bytes d
  | Decimal.D1 d => "1"%char :: uint_bytes d
  | Decimal.D2 d => "2"%char :: uint_bytes d
  | Decimal.D3 d => "3"%char :: uint_bytes d
  | Decimal.D4 d => "4"%char :: uint_bytes d
  | Decimal.D5 d => "5"%char :: uint_bytes d
  | Decimal.D6 d => "6"%char :: uint_bytes d
  | Decimal.D7 d => "7"%char :: uint_bytes d
  | Decimal.D8 d => "8"%char :: uint_bytes d
  | Decimal.D9 d => "9"%char :: uint_bytes d
  end.

Definition decimal (n : nat) : bytes := uint_bytes (Nat.to_uint n).

(** The header [Send] prints for a message. *)
Definition frame_header (msg : bytes) : bytes :=
  B "Content-Length: " ++ decimal (length msg) ++ [CR; LF; CR; LF].

(** The writing side of the connection: the writes it has taken, and how
    many more it takes before it fails ([None]: it never fails). *)
Record writer := mkWriter { written : list bytes; room : option nat }.

Inductive werror :=
| WriteError.

Definition Write (bs : bytes) (w : writer) : writer * option werror :=
  match room w with
  | Some O => (w, Some WriteError)
  | Some (S k) => (mkWriter (written w ++ [bs]) (Some k), None)
  | None => (mkWriter (written w ++ [bs]) None, None)
  end.

Definition Send (msg : bytes) (w : writer) : writer * option werror :=
  match Write (frame_header msg) w with
  | (w', Some e) => (w', Some e)
  | (w', None) => Write msg w'
  end.

End Channel.

(* ===================================================================== *)
(** ** Package chanutil *)
(* ===================================================================== *)

Module Chanutil.

Import Channel.

(** [strings.TrimPrefix]: [s] without the leading [prefix] when it has it,
    [s] itself otherwise. *)
Fixpoint cut_prefix (prefix s : string) : option string :=
  match prefix, s with
  | EmptyString, _ => Some s
  | String a p, String b t => if Ascii.eqb a b then cut_prefix p t else None
  | String _ _, EmptyString => None
  end.

Definition TrimPrefix (s prefix : string) : string :=
  match cut_prefix prefix s with
  | Some t => t
  | None => s
  end.

Definition framings : gmap string Framing :=
  list_to_map [
    ("chunked"%string, Chunked);
    ("decimal"%string, Decimal);
    ("line"%string, Line);
    ("lsp"%string, LSP);
    ("raw"%string, RawJSON);
    ("varint"%string, Varint)
  ].

(** [Framing]: nil ([None]) for a name that is not known. *)
Definition Framing (name : string) : option Channel.Framing :=
  let t := TrimPrefix name "header:" in
  if negb (String.eqb t name) then Some (Header t)
  else framings !! name.

End Chanutil.

(* ===================================================================== *)
(** ** Program jcall *)
(* ===================================================================== *)

Module Jcall.

Import Jrpc2.

(** [jrpc2.Spec], as [newSpecs] fills it; nil [Params] is [None]. *)
Record Spec := mkSpec {
  Method : string;
  Params : option string;
  Notify : bool
}.

Definition param (s : string) : option string :=
  if String.eqb s "" then None else Some s.

(** [newSpecs], with [doNotify] the value of the [-notify] flag.  The loop
    reads [args[i]] and [args[i+1]]; on a list of odd length the last
    index is out of range. *)
Fixpoint newSpecs (doNotify : bool) (args : list string) : outcome (list Spec) :=
  match args with
  | [] => Ok []
  | [_] => Panic "index out of range"
  | name :: p :: rest =>
      match newSpecs doNotify rest with
      | Panic what => Panic what
      | Ok specs => Ok (mkSpec name (param p) doNotify :: specs)
      end
  end.

(** The test [main] makes on the number of arguments before anything
    else: [false] is the fatal "Arguments are ..." exit. *)
Definition arguments_ok (narg : nat) : bool :=
  negb ((narg <? 3)%nat || (narg mod 2 =? 0)%nat).

Section Client.

(** The client of the package is not part of the sources at hand; its
    operations are taken as they are used: [Call] answers with a response
    or an error, [Notify] with an error or nil, both acting on the client. *)
Variable Client : Type.
Variable Response : Type.
Variable Call : Client -> string -> option string -> Client * (Response + goerror).
Variable Notify_ : Client -> string -> option string -> Client * option goerror.

(** The loop of [issueSequential], with [rsps] the responses so far. *)
Fixpoint issue (c : Client) (rsps : list Response) (specs : list Spec)
  : Client * (list Response + goerror) :=
  match specs with
  | [] => (c, inl rsps)
  | spec :: rest =>
      if Notify spec then
        match Notify_ c (Method spec) (Params spec) with
        | (c', Some e) => (c', inr e)
        | (c', None) => issue c' rsps rest
        end
      else
        match Call c (Method spec) (Params spec) with
        | (c', inr e) => (c', inr e)
        | (c', inl rsp) => issue c' (rsps ++ [rsp]) rest
        end
  end.

Definition issueSequential (c : Client) (specs : list Spec)
  : Client * (list Response + goerror) :=
  issue c [] specs.

End Client.

End Jcall.

(* ===================================================================== *)
(** ** Properties *)
(* ===================================================================== *)

Import Jrpc2.

(** A server that has been started on connection 0 and serves one method,
    ["add"], which answers ["5"]; ["boom"] panics and ["fail"] reports a
    plain error. *)
Definition demo_mux : Assigner := fun name =>
  if String.eqb name "add" then Some (fun _ _ => CallOk (Value "5"))
  else if String.eqb name "boom" then Some (fun _ _ => CallPanic "boom")
  else if String.eqb name "fail" then
    Some (fun _ _ => CallErr (EPlain KOther "out of luck"))
  else None.

Definition demo_new : Server :=
  match NewServer (Some demo_mux) [] with
  | Ok s => s
  | Panic _ => mkServer demo_mux 1 false None (fun _ => Background)
                        None None [] ∅ [] 0%nat 0%nat
  end.

Definition demo : Server := fst (Start demo_new 0%nat).

(** The options of opts.go, and those among them that leave the semaphore,
    respectively the request context, alone. *)
Inductive provided : ServerOption -> Prop :=
| provided_log w : provided (ServerLog w)
| provided_allow ok : provided (AllowV1 ok)
| provided_concurrency n : provided (Concurrency n)
| provided_reqctx f : provided (ReqContext f).

Inductive keeps_sem : ServerOption -> Prop :=
| keeps_sem_log w : keeps_sem (ServerLog w)
| keeps_sem_allow ok : keeps_sem (AllowV1 ok)
| keeps_sem_reqctx f : keeps_sem (ReqContext f).

Inductive keeps_reqctx : ServerOption -> Prop :=
| keeps_reqctx_log w : keeps_reqctx (ServerLog w)
| keeps_reqctx_allow ok : keeps_reqctx (AllowV1 ok)
| keeps_reqctx_concurrency n : keeps_reqctx (Concurrency n).

Definition apply_opts (opts : list ServerOption) (s : Server) : Server :=
  fold_left (fun s opt => opt s) opts s.

(** The decoder's report of the end of the stream, and of a failure of
    kind [k]. *)
Definition eof : decoded := mkDecoded (Some io_EOF) [].
Definition failure (k : errkind) (text : string) : decoded :=
  mkDecoded (Some (EPlain k text)) [].

(** A turn of the reader after which the loop goes round again. *)
Definition goes_on (d : decoded) : Prop :=
  isRecoverableJSONError (derr d) = true \/ derr d = None.

(** One batch from the decoder to the wire: the reader's turn for it, the
    scheduler's [nextRequest], and the closure it returns. *)
Definition serve (next : jrequests) (s : Server) : outcome Server :=
  let s1 := fst (read_turn (mkDecoded None next) s) in
  match nextRequest s1 with
  | Next s2 ts => complete s2 ts
  | Waiting | Failed _ => Ok s1
  end.

(** The error response the server writes for a structured error. *)
Definition error_response (i : option string) (e : Error) : jresponse :=
  mkJresponse Version i (Some (tojerror e)) None.

Definition call_add : jrequest := mkJrequest "2.0" (Some "1") "add" "[2,3]".

(** A task that [tasks.responses] passes over: a notification with no
    error recorded. *)
Definition quiet (t : task) : bool :=
  match ID (req t), terr t with
  | None, None => true
  | _, _ => false
  end.

Definition notification (r : jrequest) : bool :=
  match ID r with
  | None => true
  | Some _ => false
  end.

Fixpoint count {A : Type} (f : A -> bool) (l : list A) : nat :=
  match l with
  | [] => 0
  | x :: rest => (if f x then 1 else 0) + count f rest
  end.

(** The request handed to the handler of a task. *)
Definition request_of (t : task) : Request :=
  mkRequest (ID (req t)) (M (req t)) (P (req t)).

(** An inbound frame: one request, or an array of them. *)
Inductive frame :=
| Singleton (r : jrequest)
| Array (rs : list jrequest).

(** Modelled from the spec: batch detection in the decoder of [jrequests]
    (its [UnmarshalJSON] is not in the sources at hand): an array is decoded
    as it is, a singleton is wrapped as a batch of one element. *)
Definition decode (f : frame) : jrequests :=
  match f with
  | Singleton r => [r]
  | Array rs => rs
  end.

(** What the server hands to [Encode] in reply to a frame. *)
Definition reply (f : frame) (s : Server) : list jresponses :=
  match serve (decode f) s with
  | Ok s' => drop (length (wire s)) (wire s')
  | Panic _ => []
  end.




(** The key under which [Recv] looks the length up. *)
Definition content_length : Channel.bytes := Channel.B "content-length".

(** A header block and a payload that arrives in three pieces. *)
Definition lsp_stream : Channel.reader :=
  [Channel.Data (Channel.B "X-Trace: 1");
   Channel.Data [Channel.CR; Channel.LF];
   Channel.Data (Channel.B "CONTENT-length:  3 ");
   Channel.Data [Channel.CR; Channel.LF; Channel.CR];
   Channel.Data (Channel.LF :: Channel.B "a");
   Channel.Data (Channel.B "b");
   Channel.Data (Channel.B "cde")].

Definition call_boom : jrequest := mkJrequest "2.0" (Some "1") "boom" "".
Definition call_fail : jrequest := mkJrequest "2.0" (Some "1") "fail" "".
Definition notify_nope : jrequest := mkJrequest "2.0" None "nope" "".
Definition old_call : jrequest := mkJrequest "1.0" (Some "7") "add" "".

(** The options of opts.go that leave [allow1] alone. *)
Inductive keeps_allow1 : ServerOption -> Prop :=
| keeps_allow1_log w : keeps_allow1 (ServerLog w)
| keeps_allow1_concurrency n : keeps_allow1 (Concurrency n)
| keeps_allow1_reqctx f : keeps_allow1 (ReqContext f).

(** Several calls of [stop], one after the other. *)
Definition stops (es : list goerror) (s : Server) : Server :=
  fold_left (fun s e => stop e s) es s.

(** The ID a request adds to the live-ID set: the version check has to
    pass and the ID has to be non-empty. *)
Definition accepted_id (s : Server) (r : jrequest) : option string :=
  if versionOK s (V r) && negb (String.eqb (id_string r) "")
  then Some (id_string r) else None.

Definition live_ids (s : Server) (next : jrequests) : gset string :=
  list_to_set (omap (accepted_id s) next).

(** The reader's answer to an empty batch. *)
Definition empty_batch_response : jresponse :=
  mkJresponse Version None
    (Some (jerrorf E_InvalidRequest "empty request batch" [])) None.

Definition is_empty_batch (d : decoded) : bool :=
  match din d with
  | [] => true
  | _ :: _ => false
  end.

(** A task as [nextRequest] leaves it: no value yet, and either an error
    and no handler, or a handler and no error. *)
Definition resolved (t : task) : Prop :=
  val t = None /\
  ((terr t <> None /\ m t = None) \/ (terr t = None /\ m t <> None)).

(** A response carries a result or an error, never both and never
    neither. *)
Definition one_of_result_error (r : jresponse) : Prop :=
  (rE r = None /\ rR r <> None) \/ (rE r <> None /\ rR r = None).

(** A notification that ends with no error recorded: its version marker is
    accepted, its method is named and known to the assigner, and its
    handler returns an error (which is dropped) or a value that marshals. *)
Definition silent_notification (s : Server) (r : jrequest) : Prop :=
  versionOK s (V r) = true /\ M r <> ""%string /\
  exists h, mux s (M r) = Some h /\
    ((exists e, h (reqctx s (mkRequest None (M r) (P r))) (mkRequest None (M r) (P r))
                = CallErr e) \/
     (exists j, h (reqctx s (mkRequest None (M r) (P r))) (mkRequest None (M r) (P r))
                = CallOk (Value j))).

(** The reader's view of a stream of chunks. *)
Definition chunked (chunks : list Channel.bytes) (tail : Channel.reader)
  : Channel.reader :=
  map Channel.Data chunks ++ tail.

(** A client for [issueSequential]: it counts the operations it has seen
    and answers every call with that count; the call of ["bad"] fails. *)
Definition counting_call (c : nat) (name : string) (p : option string)
  : nat * (nat + goerror) :=
  if String.eqb name "bad" then (S c, inr (EPlain KOther "bad"))
  else (S c, inl c).

Definition counting_notify (c : nat) (name : string) (p : option string)
  : nat * option goerror :=
  (S c, None).

Section Options.

Lemma apply_opts_closer opts s :
  Forall provided opts -> closer (apply_opts opts s) = closer s.
Proof.
  intros H. revert s. induction H as [|o opts Ho _ IH]; intros s; [reflexivity|].
  unfold apply_opts in *. cbn [fold_left]. rewrite IH. now destruct Ho.
Qed.

Lemma apply_opts_mux opts s :
  Forall provided opts -> mux (apply_opts opts s) = mux s.
Proof.
  intros H. revert s. induction H as [|o opts Ho _ IH]; intros s; [reflexivity|].
  unfold apply_opts in *. cbn [fold_left]. rewrite IH. now destruct Ho.
Qed.

Lemma apply_opts_sem_pos opts s :
  Forall provided opts -> 1 <= sem s -> 1 <= sem (apply_opts opts s).
Proof.
  intros H. revert s. induction H as [|o opts Ho _ IH]; intros s Hs; [exact Hs|].
  unfold apply_opts in *. cbn [fold_left]. apply IH.
  destruct Ho; cbn; try exact Hs.
  unfold Concurrency. cbn. destruct (n <? 1) eqn:E; cbn; [lia|].
  apply Z.ltb_ge in E. exact E.
Qed.

Lemma apply_opts_sem opts s :
  Forall keeps_sem opts -> sem (apply_opts opts s) = sem s.
Proof.
  intros H. revert s. induction H as [|o opts Ho _ IH]; intros s; [reflexivity|].
  unfold apply_opts in *. cbn [fold_left]. rewrite IH. now destruct Ho.
Qed.

Lemma apply_opts_reqctx opts s :
  Forall keeps_reqctx opts -> reqctx (apply_opts opts s) = reqctx s.
Proof.
  intros H. revert s. induction H as [|o opts Ho _ IH]; intros s; [reflexivity|].
  unfold apply_opts in *. cbn [fold_left]. rewrite IH. now destruct Ho.
Qed.

End Options.

Section AnyOptions.

Lemma apply_options_returning os s :
  apply_options (map returning os) s = Ok (apply_opts os s).
Proof.
  revert s. induction os as [|o os IH]; intros s; [reflexivity|].
  cbn. apply IH.
Qed.

Lemma apply_options_app before after s :
  apply_options (before ++ after) s =
    match apply_options before s with
    | Panic what => Panic what
    | Ok s' => apply_options after s'
    end.
Proof.
  revert s. induction before as [|o before IH]; intros s; [reflexivity|].
  cbn. destruct (call_option o s) as [w|s']; [reflexivity|apply IH].
Qed.

Lemma apply_options_panic opts s :
  (exists what, apply_options opts s = Panic what) <->
  exists before o after s',
    opts = before ++ o :: after /\ apply_options before s = Ok s' /\
    exists what, call_option o s' = Panic what.
Proof.
  split.
  - revert s. induction opts as [|o opts IH]; intros s [w H]; [discriminate|].
    cbn in H. destruct (call_option o s) as [w0|s1] eqn:Ho.
    + exists [], o, opts, s. repeat split. eauto.
    + destruct (IH s1 (ex_intro _ w H)) as (before & o' & after & s' & -> & Hb & Hp).
      exists (o :: before), o', after, s'. split; [reflexivity|].
      split; [cbn; rewrite Ho; exact Hb|exact Hp].
  - intros (before & o & after & s' & -> & Hb & w & Hp).
    rewrite apply_options_app, Hb. cbn. rewrite Hp. eauto.
Qed.

End AnyOptions.

(** C10, as the code has it.  [NewServer] panics when [mux] is nil.  With
    an assigner that is not nil it panics exactly when the call of one of
    the options panics, all options before it having returned: a nil
    option, or an option whose function panics.  With options that return
    it returns a server; with the options of opts.go that server is
    unstarted (no connection), dispatches by the assigner given and has a
    semaphore of capacity at least 1; the capacity is 1 when no option is
    [Concurrency], and the request context is the background context when
    no option is [ReqContext]. *)
Theorem NewServer_panics_when (mux : option Assigner) (opts : list option_func) :
  (mux = None -> NewServer_any mux opts = Panic "nil assigner") /\
  (forall a, mux = Some a ->
     ((exists what, NewServer_any mux opts = Panic what) <->
      exists before o after s,
        opts = before ++ o :: after /\
        apply_options before (new_server a) = Ok s /\
        exists what, call_option o s = Panic what) /\
     (forall os : list ServerOption, opts = map returning os ->
        exists s, NewServer_any mux opts = Ok s /\ NewServer mux os = Ok s /\
          (Forall provided os ->
             closer s = None /\ Jrpc2.mux s = a /\ 1 <= sem s) /\
          (Forall keeps_sem os -> sem s = 1) /\
          (Forall keeps_reqctx os -> forall r, reqctx s r = Background))).
Proof.
  split; [intros ->; reflexivity|].
  intros a ->. cbn [NewServer_any]. split; [apply apply_options_panic|].
  intros os ->. rewrite apply_options_returning.
  exists (apply_opts os (new_server a)).
  split; [reflexivity|]. split; [reflexivity|].
  repeat split.
  - now rewrite apply_opts_closer.
  - now rewrite apply_opts_mux.
  - apply apply_opts_sem_pos; cbn; [assumption|lia].
  - intros H. now rewrite apply_opts_sem.
  - intros H r. now rewrite apply_opts_reqctx.
Qed.

Lemma NewServer_panics_when_witness :
  (exists what, NewServer_any (Some demo_mux) [returning (AllowV1 true); None] = Panic what) /\
  exists s, NewServer_any (Some demo_mux) (map returning [AllowV1 true; ServerLog "w"]) = Ok s /\
            closer s = None /\ sem s = 1 /\
            reqctx s (mkRequest None "add" "") = Background.
Proof.
  split.
  - apply (proj1 (proj2 (NewServer_panics_when (Some demo_mux)
                           [returning (AllowV1 true); None]) demo_mux eq_refl)).
    exists [returning (AllowV1 true)], None, [], (AllowV1 true (new_server demo_mux)).
    split; [reflexivity|]. split; [reflexivity|]. eexists. reflexivity.
  - destruct (proj2 (proj2 (NewServer_panics_when (Some demo_mux)
                              (map returning [AllowV1 true; ServerLog "w"]))
                       demo_mux eq_refl)
                [AllowV1 true; ServerLog "w"] eq_refl)
      as (s & Hs & _ & H1 & H2 & H3).
    exists s. split; [exact Hs|].
    split; [apply H1; repeat constructor|].
    split; [apply H2; repeat constructor|].
    apply H3; repeat constructor.
Defined.

(** C10, refuted as stated: with an assigner that is not nil, [NewServer]
    panics on a nil option. *)
Lemma NewServer_nil_option_panics :
  (exists what, NewServer_any (Some demo_mux) [None] = Panic what) /\
  ~ ((exists what, NewServer_any (Some demo_mux) [None] = Panic what) ->
     Some demo_mux = (None : option Assigner)).
Proof.
  assert (exists what, NewServer_any (Some demo_mux) [None] = Panic what) as H
    by (eexists; reflexivity).
  split; [exact H|]. intros Himp. specialize (Himp H). discriminate.
Qed.

(* --------------------------------------------------------------------- *)
(** *** The catalogue of framing names *)
(* --------------------------------------------------------------------- *)

Section FramingNames.

Import Chanutil.

Lemma header_prefix_cut t : TrimPrefix ("header:" +:+ t) "header:" = t.
Proof. reflexivity. Qed.

Lemma header_prefix_differs t : String.eqb t ("header:" +:+ t) = false.
Proof.
  apply String.eqb_neq. intros H.
  apply (f_equal String.length) in H.
  change (String.length t = 7 + String.length t)%nat in H. lia.
Qed.

End FramingNames.

(** C8, as the code has it.  [Framing] maps ["raw"], ["line"], ["decimal"],
    ["varint"], ["lsp"] and ["chunked"] to their framings and every name
    [header:t] to the header framing for [t]; ["nul"] is not in the table
    and yields nil. *)
Theorem Framing_catalogue :
  Chanutil.Framing "raw" = Some Channel.RawJSON /\
  Chanutil.Framing "line" = Some Channel.Line /\
  Chanutil.Framing "decimal" = Some Channel.Decimal /\
  Chanutil.Framing "varint" = Some Channel.Varint /\
  Chanutil.Framing "lsp" = Some Channel.LSP /\
  Chanutil.Framing "chunked" = Some Channel.Chunked /\
  Chanutil.Framing "nul" = None /\
  (forall t, Chanutil.Framing ("header:" +:+ t) = Some (Channel.Header t)).
Proof.
  repeat split; try (vm_compute; reflexivity).
  intros t. unfold Chanutil.Framing.
  rewrite header_prefix_cut, header_prefix_differs. reflexivity.
Qed.

(** C8, refuted as stated: ["nul"] is one of the seven names of the claim
    and [Framing] returns nil for it. *)
Lemma Framing_nul_is_nil :
  Chanutil.Framing "nul" = None /\
  ~ (forall name,
       In name ["raw"; "line"; "nul"; "decimal"; "varint"; "lsp"; "chunked"]%string ->
       Chanutil.Framing name <> None).
Proof.
  split; [vm_compute; reflexivity|].
  intros H. apply (H "nul"%string); [cbn; tauto|].
  vm_compute. reflexivity.
Qed.

(* --------------------------------------------------------------------- *)
(** *** What the workers leave alone *)
(* --------------------------------------------------------------------- *)

Section Frames.

Lemma resolve_all_length s u next :
  length (snd (resolve_all s u next)) = length next.
Proof.
  revert u. induction next as [|r rest IH]; intros u; [reflexivity|].
  cbn [resolve_all]. destruct (resolve s u r) as [u1 t].
  specialize (IH u1). destruct (resolve_all s u1 rest) as [u2 ts].
  cbn in *. now rewrite IH.
Qed.

Lemma resolve_used s u r : u ⊆ fst (resolve s u r).
Proof.
  unfold resolve, used_Add.
  destruct (negb (versionOK s (V r))); [reflexivity|].
  destruct (negb (String.eqb (id_string r) "")); cbn.
  - destruct (negb (bool_decide (id_string r ∉ u))); cbn; [set_solver|].
    destruct (String.eqb (M r) ""); cbn; [set_solver|].
    destruct (mux s (M r)); cbn; set_solver.
  - destruct (String.eqb (M r) ""); cbn; [set_solver|].
    destruct (mux s (M r)); cbn; set_solver.
Qed.

Lemma resolve_all_used s u next : u ⊆ fst (resolve_all s u next).
Proof.
  revert u. induction next as [|r rest IH]; intros u; [reflexivity|].
  cbn [resolve_all]. pose proof (resolve_used s u r) as H1.
  destruct (resolve s u r) as [u1 t].
  specialize (IH u1). destruct (resolve_all s u1 rest) as [u2 ts].
  cbn in *. set_solver.
Qed.

Lemma nextRequest_frame s s' ts :
  nextRequest s = Next s' ts ->
  used s ⊆ used s' /\ closer s' = closer s /\ err s' = err s /\
  wire s' = wire s.
Proof.
  unfold nextRequest. destruct (closer s) eqn:Hc; [|discriminate].
  destruct (inq s) as [|next q]; [discriminate|].
  pose proof (resolve_all_used s (used s) next) as Hu.
  destruct (resolve_all s (used s) next) as [u ts0].
  intros H. injection H as <- <-. cbn in *. auto.
Qed.

Lemma complete_frame s ts s' :
  complete s ts = Ok s' ->
  used s' = used s /\ closer s' = closer s /\ err s' = err s /\ inq s' = inq s.
Proof.
  unfold complete. destruct (run_tasks s ts) as [w|ts']; [discriminate|].
  destruct (responses ts'); intros H; injection H as <-; cbn; auto.
Qed.

Lemma read_turn_used d s : used (fst (read_turn d s)) = used s.
Proof.
  unfold read_turn, stop.
  destruct (isRecoverableJSONError (derr d)); [reflexivity|].
  destruct (derr d); [destruct (closer s); reflexivity|].
  destruct (din d); reflexivity.
Qed.

Lemma read_turn_goes_on d s :
  goes_on d ->
  snd (read_turn d s) = true /\
  closer (fst (read_turn d s)) = closer s /\
  err (fst (read_turn d s)) = err s.
Proof.
  unfold read_turn. intros [H|H].
  - rewrite H. cbn. auto.
  - rewrite H. cbn. destruct (din d); cbn; auto.
Qed.

Lemma read_exit_frame s :
  err (read_exit s) = err s /\ closer (read_exit s) = closer s.
Proof. split; reflexivity. Qed.

End Frames.

(* --------------------------------------------------------------------- *)
(** *** The end of the connection *)
(* --------------------------------------------------------------------- *)

(** C2, as the code has it.  When the connection of a running server ends
    by a clean end of file, after any number of turns the reader survives,
    the reader leaves its loop and [Wait] returns [io.EOF]: the error the
    decoder reported is the final error. *)
Theorem Wait_after_clean_EOF (s : Server) (ds rest : list decoded) :
  closer s <> None ->
  Forall goes_on ds ->
  snd (read (ds ++ eof :: rest) s) = true /\
  snd (Wait (fst (read (ds ++ eof :: rest) s))) = Some io_EOF.
Proof.
  intros Hc Hds. revert s Hc.
  induction Hds as [|d ds Hd _ IH]; intros s Hc.
  - cbn. unfold stop. destruct (closer s); [split; reflexivity|congruence].
  - cbn [app read].
    destruct (read_turn_goes_on d s Hd) as (H1 & H2 & _).
    destruct (read_turn d s) as [s' again]. cbn in *. subst again.
    apply IH. congruence.
Qed.

Lemma Wait_after_clean_EOF_witness :
  snd (Wait (fst (read ([mkDecoded None [call_add]] ++ eof :: []) demo))) = Some io_EOF.
Proof.
  apply (Wait_after_clean_EOF demo [mkDecoded None [call_add]] []).
  - cbn. discriminate.
  - constructor; [right; reflexivity|constructor].
Defined.

(** C2, refuted as stated: a server whose peer closes the connection
    right away reports [io.EOF] from [Wait], not nil. *)
Lemma Wait_after_EOF_not_nil :
  snd (Wait (fst (read [eof] demo))) = Some io_EOF /\
  snd (Wait (fst (read [eof] demo))) <> None.
Proof. split; [reflexivity|discriminate]. Qed.

(* --------------------------------------------------------------------- *)
(** *** Decode failures in the reader *)
(* --------------------------------------------------------------------- *)

(** C7, as the code has it.  A decode failure of type
    [*json.UnmarshalTypeError] or [*json.UnsupportedTypeError] makes the
    reader write one response with a null ID and code -32700 and go on
    reading.  Any other failure (a syntax error, a framing error, end of
    file) ends the loop; if the server is still running the error becomes
    the final error, the connection is closed and the waiters are woken,
    and if it has been stopped already the state is left as it is. *)
Theorem read_on_decode_failure (d : decoded) (e : goerror) (s : Server)
    (rest : list decoded) :
  derr d = Some e ->
  (forall text,
     isRecoverableJSONError (Some (EPlain KUnmarshalTypeError text)) = true /\
     isRecoverableJSONError (Some (EPlain KUnsupportedTypeError text)) = true /\
     isRecoverableJSONError (Some (EPlain KSyntaxError text)) = false /\
     isRecoverableJSONError (Some (EPlain KOther text)) = false /\
     isRecoverableJSONError (Some (EPlain KEOF text)) = false) /\
  (isRecoverableJSONError (Some e) = true ->
     let s' := fst (read_turn d s) in
     read (d :: rest) s = read rest s' /\
     wire s' = wire s ++
       [[mkJresponse Version None
           (Some (mkJerror E_ParseError
                    (Sprintf "invalid JSON request message" []) None)) None]] /\
     closer s' = closer s /\ err s' = err s /\ inq s' = inq s) /\
  (isRecoverableJSONError (Some e) = false ->
     let s' := fst (read (d :: rest) s) in
     snd (read (d :: rest) s) = true /\
     wire s' = wire s /\
     (closer s <> None ->
        err s' = Some e /\ closer s' = None /\
        closes s' = S (closes s) /\ broadcasts s' = S (broadcasts s)) /\
     (closer s = None ->
        err s' = err s /\ closer s' = None /\
        closes s' = closes s /\ broadcasts s' = broadcasts s)).
Proof.
  intros Hd. split; [intros text; repeat split|]. split.
  - intros Hr. cbn [read]. unfold read_turn. rewrite Hd, Hr. cbn.
    repeat split.
  - intros Hr. cbn [read]. unfold read_turn. rewrite Hd, Hr. cbn.
    unfold stop. destruct (closer s) eqn:Hc; cbn; repeat split; congruence.
Qed.

Lemma read_on_decode_failure_witness :
  wire (fst (read_turn (failure KUnmarshalTypeError "number for string") demo))
  = [[mkJresponse Version None
        (Some (mkJerror E_ParseError (Sprintf "invalid JSON request message" []) None))
        None]] /\
  err (fst (read (failure KSyntaxError "invalid character" :: []) demo))
  = Some (EPlain KSyntaxError "invalid character").
Proof.
  split.
  - destruct (read_on_decode_failure
                (failure KUnmarshalTypeError "number for string")
                (EPlain KUnmarshalTypeError "number for string") demo []
                eq_refl) as (_ & H & _).
    destruct (H eq_refl) as (_ & Hw & _). exact Hw.
  - destruct (read_on_decode_failure
                (failure KSyntaxError "invalid character")
                (EPlain KSyntaxError "invalid character") demo []
                eq_refl) as (_ & _ & H).
    destruct (H eq_refl) as (_ & _ & Hrun & _).
    apply Hrun. cbn. discriminate.
Defined.

(** C7, refuted as stated: once [Stop] has been called, the failure the
    reader then meets is not recorded (the final error stays
    [ErrServerStopped]), and the connection is not closed a second time. *)
Lemma read_failure_after_Stop_not_recorded :
  let bad := failure KSyntaxError "invalid character" in
  let s' := fst (read [bad] (Stop demo)) in
  err s' = Some ErrServerStopped /\
  err s' <> derr bad /\
  closes s' = closes (Stop demo) /\
  broadcasts s' = broadcasts (Stop demo).
Proof. cbn. repeat split. discriminate. Qed.

(* --------------------------------------------------------------------- *)
(** *** Request IDs in flight *)
(* --------------------------------------------------------------------- *)

(** C3, as the code has it.  A request whose non-empty ID is in the live-ID
    set when its disposition is computed gets an error of code -32600
    ([InvalidRequest]), the set is left as it is, the closure does not
    dispatch it, and its response carries that error under the request's
    ID.  The error reports a duplicate request id when the version marker
    is acceptable; otherwise the version check has come first and the error
    reports the version marker. *)
Theorem duplicate_id_rejected (s : Server) (u : gset string) (r : jrequest)
    (i : string) :
  ID r = Some i -> i <> ""%string -> i ∈ u ->
  exists e,
    resolve s u r = (u, failed r e) /\
    code e = E_InvalidRequest /\
    (versionOK s (V r) = true ->
       msg e = Sprintf "duplicate request id %q" [i]) /\
    (versionOK s (V r) = false ->
       msg e = Sprintf "incorrect version marker %q" [V r]) /\
    run_task s (failed r e) = Ok (failed r e) /\
    response_of (failed r e) = Some (error_response (Some i) e).
Proof.
  intros Hid Hne Hin. unfold resolve, used_Add, id_string. rewrite Hid. cbn.
  destruct (versionOK s (V r)) eqn:Hv; cbn.
  - apply String.eqb_neq in Hne. rewrite Hne. cbn.
    assert (bool_decide (i ∉ u) = false) as ->
      by (apply bool_decide_eq_false_2; intros Hn; exact (Hn Hin)).
    cbn.
    assert (u ∪ {[ i ]} = u) as ->.
    { rewrite (comm_L (∪)). apply subseteq_union_1_L.
      apply singleton_subseteq_l. exact Hin. }
    eexists. split.
    + reflexivity.
    + cbn. unfold response_of, error_response. cbn. rewrite Hid.
      repeat split; congruence.
  - eexists. split; [reflexivity|].
    cbn. unfold response_of, error_response. cbn. rewrite Hid.
    repeat split; congruence.
Qed.

Lemma duplicate_id_rejected_witness :
  exists e,
    resolve demo {[ "1"%string ]} call_add = ({[ "1"%string ]}, failed call_add e) /\
    code e = E_InvalidRequest /\
    msg e = Sprintf "duplicate request id %q" ["1"%string].
Proof.
  destruct (duplicate_id_rejected demo {[ "1"%string ]} call_add "1")
    as (e & H1 & H2 & H3 & _).
  - reflexivity.
  - discriminate.
  - set_solver.
  - exists e. split; [exact H1|]. split; [exact H2|].
    apply H3. reflexivity.
Defined.

(** C3, refuted as stated: with the ID ["7"] in flight, a second request
    ["7"] whose version marker is ["1.0"] is rejected for its version
    marker; its error does not report a duplicate request id. *)
Lemma duplicate_id_behind_version_check :
  let t := snd (resolve demo {[ "7"%string ]} old_call) in
  terr t = Some (EError (Errorf E_InvalidRequest "incorrect version marker %q" ["1.0"%string])) /\
  terr t <> Some (EError (Errorf E_InvalidRequest "duplicate request id %q" ["7"%string])).
Proof. cbn. split; [reflexivity|discriminate]. Qed.

Section LiveIDs.

Lemma serve_used next s s' : serve next s = Ok s' -> used s ⊆ used s'.
Proof.
  unfold serve. pose proof (read_turn_used (mkDecoded None next) s) as Hr.
  destruct (nextRequest (fst (read_turn (mkDecoded None next) s))) as [|e|s2 ts] eqn:Hn.
  - intros H. injection H as <-. now rewrite Hr.
  - intros H. injection H as <-. now rewrite Hr.
  - intros H. apply nextRequest_frame in Hn as (Hu & _).
    apply complete_frame in H as (Hc & _). rewrite Hc, <- Hr. exact Hu.
Qed.

End LiveIDs.

(** C4, on the code.  No step of the reader or of the scheduler takes an ID
    out of the live-ID set: after the server has answered the call with ID
    ["1"], the ID is still in the set, and the same call sent again is
    answered with "duplicate request id". *)
Theorem processed_id_stays_live :
  exists s1 s2,
    serve [call_add] demo = Ok s1 /\
    inq s1 = [] /\
    wire s1 = [[mkJresponse Version (Some "1"%string) None (Some "5"%string)]] /\
    "1"%string ∈ used s1 /\
    serve [call_add] s1 = Ok s2 /\
    wire s2 =
      [[mkJresponse Version (Some "1"%string) None (Some "5"%string)];
       [error_response (Some "1"%string)
          (Errorf E_InvalidRequest "duplicate request id %q" ["1"%string])]].
Proof.
  eexists. eexists. split; [vm_compute; reflexivity|].
  split; [reflexivity|]. split; [reflexivity|].
  split; [refine (bool_decide_unpack _ _); vm_compute; exact I|].
  split; vm_compute; reflexivity.
Qed.

(* --------------------------------------------------------------------- *)
(** *** Running the tasks of a batch *)
(* --------------------------------------------------------------------- *)

Section Tasks.

Lemma run_task_req s t t' : run_task s t = Ok t' -> req t' = req t.
Proof.
  unfold run_task. destruct (terr t); [intros H; now injection H as <-|].
  destruct (m t) as [h|]; [|discriminate].
  destruct (dispatch s h _) as [w|[v e]]; [discriminate|].
  intros H. now injection H as <-.
Qed.

Lemma run_tasks_panic s t ts w :
  In t ts -> run_task s t = Panic w -> exists w', run_tasks s ts = Panic w'.
Proof.
  induction ts as [|t0 rest IH]; [intros []|].
  intros [->|Hin] Hp; cbn [run_tasks].
  - rewrite Hp. eauto.
  - destruct (run_task s t0) as [w0|t0']; [eauto|].
    destruct (IH Hin Hp) as [w' ->]. eauto.
Qed.

Lemma run_tasks_ok s ts :
  (forall t w, In t ts -> run_task s t <> Panic w) ->
  exists ts', run_tasks s ts = Ok ts' /\ map req ts' = map req ts.
Proof.
  induction ts as [|t rest IH]; intros Hno.
  - exists []. split; reflexivity.
  - cbn [run_tasks].
    destruct (run_task s t) as [w|t'] eqn:Ht.
    + exfalso. apply (Hno t w); [left; reflexivity|exact Ht].
    + destruct IH as (rest' & Hr & Hm).
      { intros t0 w Hin. apply Hno. right. exact Hin. }
      rewrite Hr. exists (t' :: rest'). split; [reflexivity|].
      cbn. rewrite Hm, (run_task_req _ _ _ Ht). reflexivity.
Qed.

Lemma run_tasks_In s ts ts' t t' :
  run_tasks s ts = Ok ts' -> In t ts -> run_task s t = Ok t' -> In t' ts'.
Proof.
  revert ts'. induction ts as [|t0 rest IH]; intros ts' Hr; [intros []|].
  cbn [run_tasks] in Hr.
  destruct (run_task s t0) as [w0|t0'] eqn:H0; [discriminate|].
  destruct (run_tasks s rest) as [w1|rest']; [discriminate|].
  injection Hr as <-. intros [->|Hin] Ht.
  - left. congruence.
  - right. eapply IH; eauto.
Qed.

Lemma response_of_quiet t : response_of t = None <-> quiet t = true.
Proof.
  unfold response_of, quiet.
  destruct (ID (req t)), (terr t) as [[e|c|k text]|]; split;
    (reflexivity || discriminate).
Qed.

Lemma responses_In ts t r : In t ts -> response_of t = Some r -> In r (responses ts).
Proof.
  induction ts as [|t0 rest IH]; [intros []|].
  intros [->|Hin] Hr; cbn [responses].
  - rewrite Hr. left. reflexivity.
  - destruct (response_of t0); [right|]; auto.
Qed.

Lemma responses_length ts :
  (length (responses ts) + count quiet ts = length ts)%nat.
Proof.
  induction ts as [|t rest IH]; [reflexivity|].
  cbn [responses count length].
  destruct (response_of t) eqn:Hr.
  - destruct (quiet t) eqn:Hq.
    + apply response_of_quiet in Hq. congruence.
    + cbn. lia.
  - apply response_of_quiet in Hr. rewrite Hr. cbn. lia.
Qed.

Lemma count_quiet_le ts : (count quiet ts <= count notification (map req ts))%nat.
Proof.
  induction ts as [|t rest IH]; [reflexivity|].
  cbn. unfold quiet at 1, notification at 1.
  destruct (ID (req t)), (terr t); cbn; lia.
Qed.

Lemma count_quiet_eq ts :
  (forall t, In t ts -> ID (req t) = None -> terr t = None) ->
  count quiet ts = count notification (map req ts).
Proof.
  induction ts as [|t rest IH]; intros H; [reflexivity|].
  cbn. rewrite IH by (intros t0 Hin; apply H; right; exact Hin).
  f_equal. unfold quiet, notification.
  destruct (ID (req t)) eqn:Hi; [reflexivity|].
  rewrite (H t (or_introl eq_refl) Hi). reflexivity.
Qed.

Lemma resolve_req s u r : req (snd (resolve s u r)) = r.
Proof.
  unfold resolve, used_Add.
  destruct (negb (versionOK s (V r))); [reflexivity|].
  destruct (negb (String.eqb (id_string r) "")); cbn.
  - destruct (negb (bool_decide (id_string r ∉ u))); cbn; [reflexivity|].
    destruct (String.eqb (M r) ""); cbn; [reflexivity|].
    destruct (mux s (M r)); reflexivity.
  - destruct (String.eqb (M r) ""); cbn; [reflexivity|].
    destruct (mux s (M r)); reflexivity.
Qed.

Lemma resolve_all_req s u next : map req (snd (resolve_all s u next)) = next.
Proof.
  revert u. induction next as [|r rest IH]; intros u; [reflexivity|].
  cbn [resolve_all]. pose proof (resolve_req s u r) as H1.
  destruct (resolve s u r) as [u1 t].
  specialize (IH u1). destruct (resolve_all s u1 rest) as [u2 ts].
  cbn in *. congruence.
Qed.

End Tasks.

(** C1, as the code has it.  For a task bound to a handler: if the handler
    panics, running the batch panics, whatever else the batch holds (no
    call is made under a recover); if the handler of a call (ID present)
    returns an error that is neither an [*Error] nor a [Code], the task
    ends with a response of code -32603 ([InternalError]) under the ID of
    the request, and the batch's reply contains it. *)
Theorem handler_failure_outcome (s : Server) (ts : tasks) (t : task) (h : Method) :
  In t ts -> m t = Some h -> terr t = None ->
  (forall what,
     h (reqctx s (request_of t)) (request_of t) = CallPanic what ->
     exists what', complete s ts = Panic what') /\
  (forall k text i,
     h (reqctx s (request_of t)) (request_of t) = CallErr (EPlain k text) ->
     ID (req t) = Some i ->
     let r := mkJresponse Version (Some i)
                (Some (mkJerror E_InternalError
                         (Sprintf "internal error: %v" [text]) None)) None in
     forall ts', run_tasks s ts = Ok ts' ->
       In r (responses ts') /\
       complete s ts = Ok (send (responses ts') s)).
Proof.
  intros Hin Hm He. split.
  - intros what Hp.
    assert (run_task s t = Panic what) as Ht.
    { unfold run_task, dispatch. rewrite He, Hm.
      change (mkRequest (ID (req t)) (M (req t)) (P (req t))) with (request_of t).
      rewrite Hp. reflexivity. }
    destruct (run_tasks_panic s t ts what Hin Ht) as [w' Hw].
    exists w'. unfold complete. rewrite Hw. reflexivity.
  - intros k text i Hc Hi r ts' Hr.
    assert (run_task s t = Ok (mkTask (m t) (req t) None (Some (EPlain k text)))) as Ht.
    { unfold run_task, dispatch. rewrite He, Hm.
      change (mkRequest (ID (req t)) (M (req t)) (P (req t))) with (request_of t).
      rewrite Hc. cbn. rewrite Hi. reflexivity. }
    assert (In r (responses ts')) as Hres.
    { eapply responses_In; [eapply run_tasks_In; eauto|].
      unfold response_of. cbn. rewrite Hi. reflexivity. }
    split; [exact Hres|].
    unfold complete. rewrite Hr.
    destruct (responses ts'); [destruct Hres|reflexivity].
Qed.

Lemma handler_failure_outcome_witness :
  (exists what', complete demo (snd (resolve_all demo ∅ [call_boom])) = Panic what') /\
  In (mkJresponse Version (Some "1"%string)
        (Some (mkJerror E_InternalError
                 (Sprintf "internal error: %v" ["out of luck"%string]) None)) None)
     (responses [mkTask (Some (fun _ _ => CallErr (EPlain KOther "out of luck")))
                        call_fail None (Some (EPlain KOther "out of luck"))]).
Proof.
  split.
  - destruct (handler_failure_outcome demo
                [mkTask (Some (fun _ _ => CallPanic "boom")) call_boom None None]
                (mkTask (Some (fun _ _ => CallPanic "boom")) call_boom None None)
                (fun _ _ => CallPanic "boom")
                (or_introl eq_refl) eq_refl eq_refl) as [H _].
    exact (H "boom"%string eq_refl).
  - destruct (handler_failure_outcome demo
                [mkTask (Some (fun _ _ => CallErr (EPlain KOther "out of luck")))
                        call_fail None None]
                (mkTask (Some (fun _ _ => CallErr (EPlain KOther "out of luck")))
                        call_fail None None)
                (fun _ _ => CallErr (EPlain KOther "out of luck"))
                (or_introl eq_refl) eq_refl eq_refl) as [_ H].
    exact (proj1 (H KOther "out of luck"%string "1"%string eq_refl eq_refl _ eq_refl)).
Defined.

(** C1, refuted as stated: a call of a method whose handler panics takes
    the server's request processing down with it; nothing is written for
    the request, neither an [InternalError] nor anything else. *)
Lemma handler_panic_not_caught :
  serve [call_boom] demo = Panic "boom" /\
  reply (Singleton call_boom) demo = [].
Proof. split; vm_compute; reflexivity. Qed.

(* --------------------------------------------------------------------- *)
(** *** The reply to a batch *)
(* --------------------------------------------------------------------- *)

Section Replies.

Lemma run_task_ext s s' t : reqctx s' = reqctx s -> run_task s' t = run_task s t.
Proof. intros H. unfold run_task, dispatch. rewrite H. reflexivity. Qed.

Lemma run_tasks_ext s s' ts : reqctx s' = reqctx s -> run_tasks s' ts = run_tasks s ts.
Proof.
  intros H. induction ts as [|t rest IH]; [reflexivity|].
  cbn [run_tasks]. rewrite IH, (run_task_ext s s' t H). reflexivity.
Qed.

Lemma run_tasks_length s ts ts' : run_tasks s ts = Ok ts' -> length ts' = length ts.
Proof.
  revert ts'. induction ts as [|t rest IH]; intros ts' H; cbn [run_tasks] in H.
  - now injection H as <-.
  - destruct (run_task s t); [discriminate|].
    destruct (run_tasks s rest); [discriminate|].
    injection H as <-. cbn. f_equal. now apply IH.
Qed.

Lemma count_le_length {A} (f : A -> bool) l : (count f l <= length l)%nat.
Proof. induction l as [|x l IH]; cbn; [lia|]. destruct (f x); lia. Qed.

Lemma complete_wire s ts ts' :
  run_tasks s ts = Ok ts' ->
  exists s', complete s ts = Ok s' /\
    wire s' = wire s ++ match responses ts' with [] => [] | _ :: _ => [responses ts'] end.
Proof.
  intros H. unfold complete. rewrite H.
  destruct (responses ts') eqn:Hr.
  - exists s. split; [reflexivity|]. now rewrite app_nil_r.
  - eexists. split; reflexivity.
Qed.

End Replies.

(* --------------------------------------------------------------------- *)
(** *** LSP framing: Recv *)
(* --------------------------------------------------------------------- *)

Example Recv_lsp_stream :
  Channel.Recv lsp_stream
  = Some (Channel.Message (Channel.B "abc") [Channel.Data (Channel.B "de")]).
Proof. vm_compute. reflexivity. Qed.

Section LSPRecv.

Import Channel.

Lemma cut_line_length bs pre post :
  cut_line bs = Some (pre, post) ->
  bs = pre ++ post /\ (1 <= length pre)%nat.
Proof.
  revert pre post. induction bs as [|c rest IH]; intros pre post; cbn; [discriminate|].
  destruct (Ascii.eqb c LF).
  - intros H. injection H as <- <-. split; [reflexivity|cbn; lia].
  - destruct (cut_line rest) as [[pre0 post0]|]; [|discriminate].
    intros H. injection H as <- <-.
    destruct (IH pre0 post0 eq_refl) as [-> _]. split; [reflexivity|cbn; lia].
Qed.

Lemma pending_unread bs rd : pending (unread bs rd) = (length bs + pending rd)%nat.
Proof. destruct bs; reflexivity. Qed.

Lemma ReadString_pending acc rd raw e rd' :
  ReadString acc rd = (raw, e, rd') ->
  (pending rd' <= pending rd)%nat /\ (e = None -> (pending rd' < pending rd)%nat).
Proof.
  revert acc. induction rd as [|[bs|f] rest IH]; intros acc; cbn [ReadString].
  - intros H. injection H as <- <- <-. split; [lia|discriminate].
  - destruct (cut_line bs) as [[pre post]|] eqn:Hc.
    + intros H. injection H as <- <- <-.
      apply cut_line_length in Hc as [-> Hpre].
      rewrite pending_unread. cbn [pending]. rewrite length_app. lia.
    + intros H. apply IH in H as [H1 H2]. cbn [pending]. split; [lia|].
      intros He. specialize (H2 He). lia.
  - intros H. injection H as <- <- <-. cbn [pending]. split; [lia|discriminate].
Qed.

Lemma header_turn_pending h rd h' rd' :
  header_turn h rd = Continue h' rd' -> (pending rd' < pending rd)%nat.
Proof.
  unfold header_turn.
  destruct (ReadString [] rd) as [[raw e] rd0] eqn:Hr.
  apply ReadString_pending in Hr as [_ Hr].
  destruct (TrimRight is_crlf raw) as [|c line].
  - destruct e as [[]|]; discriminate.
  - destruct (SplitN2 (c :: line)) as [[name value]|]; [|discriminate].
    destruct e as [[]|]; try discriminate.
    intros H. injection H as _ <-. auto.
Qed.

Lemma headers_stable n h rd :
  (pending rd < n)%nat ->
  exists r, forall fuel, (pending rd < fuel)%nat -> headers fuel h rd = Some r.
Proof.
  revert h rd. induction n as [|n IH]; intros h rd Hn; [lia|].
  destruct (header_turn h rd) as [e|h' rd'|h' rd'] eqn:Ht.
  - exists (inl e). intros [|fuel] Hf; [lia|]. cbn. now rewrite Ht.
  - exists (inr (h', rd')). intros [|fuel] Hf; [lia|]. cbn. now rewrite Ht.
  - pose proof (header_turn_pending _ _ _ _ Ht) as Hp.
    destruct (IH h' rd') as [r Hr]; [lia|].
    exists r. intros [|fuel] Hf; [lia|]. cbn. rewrite Ht. apply Hr. lia.
Qed.

Lemma headers_one_turn h rd :
  headers (S (pending rd)) h rd =
    match header_turn h rd with
    | Return e => Some (inl e)
    | Break h' rd' => Some (inr (h', rd'))
    | Continue h' rd' => headers (S (pending rd')) h' rd'
    end.
Proof.
  destruct (header_turn h rd) as [e|h' rd'|h' rd'] eqn:Ht; cbn [headers]; rewrite Ht;
    try reflexivity.
  pose proof (header_turn_pending _ _ _ _ Ht) as Hp.
  destruct (headers_stable (S (pending rd')) h' rd') as [r Hr]; [lia|].
  change (headers (pending rd) h' rd' = headers (S (pending rd')) h' rd').
  rewrite (Hr (pending rd)), (Hr (S (pending rd'))) by lia. reflexivity.
Qed.

Lemma Recv_from_one_turn h rd :
  Recv_from h rd =
    match header_turn h rd with
    | Return e => Some (Error e)
    | Break h' rd' => Some (body h' rd')
    | Continue h' rd' => Recv_from h' rd'
    end.
Proof.
  unfold Recv_from. rewrite headers_one_turn.
  destruct (header_turn h rd); reflexivity.
Qed.

Lemma Recv_from_total h rd : exists r, Recv_from h rd = Some r.
Proof.
  unfold Recv_from.
  destruct (headers_stable (S (pending rd)) h rd) as [r Hr]; [lia|].
  rewrite Hr by lia. destruct r as [e|[h' rd']]; eauto.
Qed.





Lemma ReadFull_chunks n acc (chunks : list bytes) (tail : reader) :
  (n <= length (concat chunks))%nat ->
  exists rd',
    ReadFull n acc (map Data chunks ++ tail) = (acc ++ take n (concat chunks), None, rd').
Proof.
  revert n acc. induction chunks as [|bs chunks IH]; intros n acc Hn.
  - cbn in Hn. assert (n = 0%nat) as -> by lia. cbn.
    exists tail. rewrite app_nil_r. destruct tail; reflexivity.
  - destruct n as [|n].
    + cbn. rewrite app_nil_r. eauto.
    + cbn [map app ReadFull concat].
      destruct (S n <=? length bs)%nat eqn:Hle.
      * apply Nat.leb_le in Hle. eexists.
        rewrite take_app_le by exact Hle. reflexivity.
      * apply Nat.leb_gt in Hle.
        cbn [concat] in Hn. rewrite length_app in Hn.
        destruct (IH (S n - length bs)%nat (acc ++ bs)) as [rd' Hrd]; [lia|].
        exists rd'. rewrite Hrd. f_equal. f_equal.
        rewrite <- app_assoc. f_equal.
        rewrite take_app_ge by lia. reflexivity.
Qed.

End LSPRecv.

(* ===================================================================== *)
(** ** Further properties of the server *)
(* ===================================================================== *)

Section Lifecycle.

Lemma stops_stopped es s : closer s = None -> stops es s = s.
Proof.
  revert s. induction es as [|e es IH]; intros s Hc; [reflexivity|].
  unfold stops in *. cbn [fold_left]. unfold stop at 2. rewrite Hc. now apply IH.
Qed.

End Lifecycle.

(** X1.  Of several calls of [stop] on a running server only the first
    takes effect: its error is the final error, the connection is closed
    once and the waiters are woken once, whatever errors the later calls
    bring; and from then on the scheduler returns that error without
    looking at the batches still in the queue. *)
Theorem first_stop_wins (s : Server) (e : goerror) (es : list goerror) :
  closer s <> None ->
  let s' := stops (e :: es) s in
  err s' = Some e /\ closer s' = None /\
  closes s' = S (closes s) /\ broadcasts s' = S (broadcasts s) /\
  inq s' = inq s /\ wire s' = wire s /\
  nextRequest s' = Failed (Some e) /\
  snd (Wait s') = Some e.
Proof.
  intros Hc s'. subst s'. unfold stops. cbn [fold_left].
  fold (stops es (stop e s)).
  rewrite stops_stopped by (unfold stop; destruct (closer s); [reflexivity|congruence]).
  unfold nextRequest, Wait, stop. destruct (closer s); [|congruence].
  cbn. repeat split.
Qed.

Lemma first_stop_wins_witness :
  err (stops [io_EOF; ErrServerStopped] (set_inq [[call_add]] demo)) = Some io_EOF /\
  nextRequest (stops [io_EOF; ErrServerStopped] (set_inq [[call_add]] demo))
  = Failed (Some io_EOF).
Proof.
  pose proof (first_stop_wins (set_inq [[call_add]] demo) io_EOF [ErrServerStopped]) as H.
  destruct H as (H1 & _ & _ & _ & _ & _ & H2 & _).
  - cbn. discriminate.
  - split; [exact H1|exact H2].
Defined.

(** X2.  A server cannot be started twice: [Start] on a running server
    reports an error and changes nothing.  Once it has been stopped it can
    be started again, and the new start forgets the final error, the queue
    and the live IDs of the previous run while keeping the configuration. *)
Theorem Start_twice_and_restart (s : Server) (c1 c2 : Conn) (e : goerror) :
  closer s = None ->
  let s1 := fst (Start s c1) in
  Start s1 c2 = (s1, Some (EPlain KOther "T is already started")) /\
  (forall s1', closer s1' <> None ->
     let s2 := fst (Start (stop e s1') c2) in
     snd (Start (stop e s1') c2) = None /\
     closer s2 = Some c2 /\ err s2 = None /\ inq s2 = [] /\ used s2 = ∅ /\
     mux s2 = mux s1' /\ sem s2 = sem s1' /\ allow1 s2 = allow1 s1' /\
     wire s2 = wire s1').
Proof.
  intros Hc s1. subst s1. split.
  - unfold Start. rewrite Hc. reflexivity.
  - intros s1' Hr. unfold Start, stop. destruct (closer s1'); [|congruence].
    cbn. repeat split.
Qed.

Lemma Start_twice_and_restart_witness :
  Start demo 7%nat = (demo, Some (EPlain KOther "T is already started")).
Proof.
  exact (proj1 (Start_twice_and_restart demo_new 0%nat 7%nat io_EOF eq_refl)).
Defined.

Section Versions.

Lemma apply_opts_allow1 opts s :
  Forall keeps_allow1 opts -> allow1 (apply_opts opts s) = allow1 s.
Proof.
  intros H. revert s. induction H as [|o opts Ho _ IH]; intros s; [reflexivity|].
  unfold apply_opts in *. cbn [fold_left]. rewrite IH. now destruct Ho.
Qed.

Lemma apply_opts_app opts1 opts2 s :
  apply_opts (opts1 ++ opts2) s = apply_opts opts2 (apply_opts opts1 s).
Proof. unfold apply_opts. apply fold_left_app. Qed.

End Versions.

(** X3.  A server accepts the version marker ["2.0"] and, when [allow1] is
    set, the empty marker, and no other.  A server made by [NewServer]
    without an [AllowV1] option accepts ["2.0"] only; one whose last option
    is [AllowV1 ok] accepts the empty marker exactly when [ok] is true. *)
Theorem version_policy (a : Assigner) (opts : list ServerOption) (v : string) :
  (forall s, versionOK s v = true <->
             v = "2.0"%string \/ (v = ""%string /\ allow1 s = true)) /\
  (Forall keeps_allow1 opts ->
     exists s, NewServer (Some a) opts = Ok s /\
               (versionOK s v = true <-> v = "2.0"%string)) /\
  (forall ok, exists s,
     NewServer (Some a) (opts ++ [AllowV1 ok]) = Ok s /\
     versionOK s "" = ok).
Proof.
  assert (forall s, versionOK s v = true <->
                    v = "2.0"%string \/ (v = ""%string /\ allow1 s = true)) as Hv.
  { intros s. unfold versionOK, Version.
    destruct (String.eqb v "") eqn:He.
    - apply String.eqb_eq in He. subst v. split.
      + intros H. right. auto.
      + intros [H|[_ H]]; [discriminate|exact H].
    - apply String.eqb_neq in He. rewrite String.eqb_eq. split.
      + intros H. left. exact H.
      + intros [H|[H _]]; [exact H|congruence]. }
  split; [exact Hv|]. split.
  - intros Hk. cbn. eexists. split; [reflexivity|].
    rewrite Hv.
    fold (apply_opts opts
            (mkServer a 1 false None (fun _ => Background) None None [] ∅ []
                      0%nat 0%nat)).
    rewrite (apply_opts_allow1 _ _ Hk). cbn. split.
    + intros [H|[_ H]]; [exact H|discriminate].
    + intros H. left. exact H.
  - intros ok. cbn. eexists. split; [reflexivity|].
    fold (apply_opts (opts ++ [AllowV1 ok])
            (mkServer a 1 false None (fun _ => Background) None None [] ∅ []
                      0%nat 0%nat)).
    rewrite apply_opts_app. reflexivity.
Qed.

Lemma version_policy_witness :
  exists s, NewServer (Some demo_mux) [Concurrency 4] = Ok s /\
            (versionOK s "1.0" = true <-> "1.0"%string = "2.0"%string).
Proof.
  destruct (version_policy demo_mux [Concurrency 4] "1.0") as (_ & H & _).
  apply H. repeat constructor.
Defined.

(** X4.  [Concurrency n] gives the semaphore the capacity [n], and 1 when
    [n] is less than 1; of several options the last one decides, so a
    server whose last option is [Concurrency n] has capacity [max 1 n]
    whatever came before. *)
Theorem Concurrency_clamped (a : Assigner) (opts : list ServerOption) (n : Z) :
  exists s, NewServer (Some a) (opts ++ [Concurrency n]) = Ok s /\
            sem s = Z.max 1 n /\ 1 <= sem s.
Proof.
  cbn. eexists. split; [reflexivity|].
  fold (apply_opts (opts ++ [Concurrency n])
          (mkServer a 1 false None (fun _ => Background) None None [] ∅ []
                    0%nat 0%nat)).
  rewrite apply_opts_app. cbn. unfold Concurrency.
  destruct (n <? 1) eqn:E; cbn.
  - apply Z.ltb_lt in E. split; lia.
  - apply Z.ltb_ge in E. split; lia.
Qed.

(** X5.  While the decoder reports no error the reader stays in its loop.
    It puts every non-empty batch at the tail of the queue, in the order
    of arrival, and wakes the waiters once for each; every empty batch is
    answered on the spot with one [InvalidRequest] response under a null
    ID and is not queued.  The connection, the final error and the live
    IDs are not touched. *)
Theorem read_keeps_order (ds : list decoded) (s : Server) :
  Forall (fun d => derr d = None) ds ->
  let s' := fst (read ds s) in
  snd (read ds s) = false /\
  inq s' = inq s ++ map din (List.filter (fun d => negb (is_empty_batch d)) ds) /\
  wire s' = wire s ++ map (fun _ => [empty_batch_response]) (List.filter is_empty_batch ds) /\
  broadcasts s' =
    (broadcasts s + length (List.filter (fun d => negb (is_empty_batch d)) ds))%nat /\
  closer s' = closer s /\ err s' = err s /\ used s' = used s /\ closes s' = closes s.
Proof.
  intros H. revert s. induction H as [|d ds Hd _ IH]; intros s.
  - cbn. rewrite !app_nil_r. repeat split. lia.
  - cbn [read]. unfold read_turn. rewrite Hd. cbn [isRecoverableJSONError].
    destruct (din d) as [|r0 rest] eqn:Hin.
    + assert (List.filter (fun d => negb (is_empty_batch d)) (d :: ds)
              = List.filter (fun d => negb (is_empty_batch d)) ds) as F1
        by (cbn [List.filter]; unfold is_empty_batch at 1; rewrite Hin; reflexivity).
      assert (List.filter is_empty_batch (d :: ds)
              = d :: List.filter is_empty_batch ds) as F2
        by (cbn [List.filter]; unfold is_empty_batch at 1; rewrite Hin; reflexivity).
      rewrite F1, F2. cbv iota beta.
      destruct (IH (pushError None (jerrorf E_InvalidRequest "empty request batch" []) s))
        as (H1 & H2 & H3 & H4 & H5 & H6 & H7 & H8).
      rewrite H1, H2, H3, H4, H5, H6, H7, H8. cbn.
      rewrite <- app_assoc. repeat split.
    + assert (List.filter (fun d => negb (is_empty_batch d)) (d :: ds)
              = d :: List.filter (fun d => negb (is_empty_batch d)) ds) as F1
        by (cbn [List.filter]; unfold is_empty_batch at 1; rewrite Hin; reflexivity).
      assert (List.filter is_empty_batch (d :: ds)
              = List.filter is_empty_batch ds) as F2
        by (cbn [List.filter]; unfold is_empty_batch at 1; rewrite Hin; reflexivity).
      rewrite F1, F2. cbv iota beta.
      match goal with
      | |- context [read ds ?x] =>
          destruct (IH x) as (H1 & H2 & H3 & H4 & H5 & H6 & H7 & H8)
      end.
      rewrite H1, H2, H3, H4, H5, H6, H7, H8. cbn.
      rewrite <- app_assoc, Hin. cbn. repeat split. lia.
Qed.

Lemma read_keeps_order_witness :
  inq (fst (read [mkDecoded None [call_add]; mkDecoded None []; mkDecoded None [call_fail]] demo))
  = [[call_add]; [call_fail]].
Proof.
  pose proof (read_keeps_order
                [mkDecoded None [call_add]; mkDecoded None []; mkDecoded None [call_fail]]
                demo) as H.
  destruct H as (_ & H & _).
  - repeat constructor.
  - exact H.
Defined.

Section LiveIDGrowth.

Lemma resolve_fst s u r :
  fst (resolve s u r) =
    match accepted_id s r with
    | Some i => u ∪ {[ i ]}
    | None => u
    end.
Proof.
  unfold resolve, accepted_id, used_Add.
  destruct (versionOK s (V r)); cbn [negb andb]; [|reflexivity].
  destruct (String.eqb (id_string r) ""); cbn [negb].
  - destruct (String.eqb (M r) ""); [reflexivity|].
    destruct (mux s (M r)); reflexivity.
  - destruct (bool_decide (id_string r ∉ u)); cbn [negb]; [|reflexivity].
    destruct (String.eqb (M r) ""); [reflexivity|].
    destruct (mux s (M r)); reflexivity.
Qed.

Lemma resolve_all_app s u l1 l2 :
  resolve_all s u (l1 ++ l2) =
    (fst (resolve_all s (fst (resolve_all s u l1)) l2),
     snd (resolve_all s u l1) ++ snd (resolve_all s (fst (resolve_all s u l1)) l2)).
Proof.
  revert u. induction l1 as [|r l1 IH]; intros u.
  - cbn. now destruct (resolve_all s u l2).
  - cbn [app resolve_all]. destruct (resolve s u r) as [u1 t].
    rewrite IH. destruct (resolve_all s u1 l1) as [u2 ts]. cbn.
    destruct (resolve_all s u2 l2). reflexivity.
Qed.

Lemma resolve_duplicate s u r i :
  ID r = Some i -> i <> ""%string -> versionOK s (V r) = true -> i ∈ u ->
  snd (resolve s u r) =
    failed r (Errorf E_InvalidRequest "duplicate request id %q" [i]).
Proof.
  intros Hid Hne Hv Hin. unfold resolve, used_Add, id_string. rewrite Hid, Hv. cbn.
  apply String.eqb_neq in Hne. rewrite Hne. cbn.
  assert (bool_decide (i ∉ u) = false) as ->
    by (apply bool_decide_eq_false_2; intros Hn; exact (Hn Hin)).
  reflexivity.
Qed.

End LiveIDGrowth.

Lemma resolve_all_fst (s : Server) (u : gset string) (next : jrequests) :
  fst (resolve_all s u next) = u ∪ live_ids s next.
Proof.
  unfold live_ids. revert u. induction next as [|r rest IH]; intros u.
  - cbn. now rewrite (right_id_L ∅ (∪)).
  - cbn [resolve_all]. pose proof (resolve_fst s u r) as Hr.
    destruct (resolve s u r) as [u1 t]. cbn [fst] in Hr.
    specialize (IH u1). destruct (resolve_all s u1 rest) as [u2 ts].
    cbn [fst] in *. rewrite IH, Hr.
    cbn [omap list_omap].
    destruct (accepted_id s r) as [i|]; [|reflexivity].
    cbn [list_to_set]. now rewrite (assoc_L (∪)).
Qed.

(** X6.  Taking a batch off the queue of a running server adds to the
    live-ID set exactly the non-empty IDs of its requests whose version
    marker is accepted, and nothing else: requests rejected for their
    version and notifications leave no trace, while a request rejected
    later for its method, or as a duplicate, has its ID in the set.  The
    rest of the queue, the output and the final error stay as they are. *)
Theorem live_ids_after_batch (s : Server) (c : Conn) (next : jrequests)
    (rest : list jrequests) :
  closer s = Some c -> inq s = next :: rest ->
  exists s' ts,
    nextRequest s = Next s' ts /\
    used s' = used s ∪ live_ids s next /\
    inq s' = rest /\ map req ts = next /\
    wire s' = wire s /\ err s' = err s.
Proof.
  intros Hc Hq. unfold nextRequest. rewrite Hc, Hq.
  pose proof (resolve_all_fst s (used s) next) as Hu.
  pose proof (resolve_all_req s (used s) next) as Hr.
  destruct (resolve_all s (used s) next) as [u ts]. cbn [fst snd] in Hu, Hr.
  exists (set_used u (set_inq rest s)), ts.
  split; [reflexivity|]. cbn. rewrite Hu. repeat split. exact Hr.
Qed.

Lemma live_ids_after_batch_witness :
  exists s' ts,
    nextRequest (set_inq [[call_add; notify_nope; old_call]] demo) = Next s' ts /\
    used s' = used (set_inq [[call_add; notify_nope; old_call]] demo)
              ∪ live_ids (set_inq [[call_add; notify_nope; old_call]] demo)
                  [call_add; notify_nope; old_call].
Proof.
  destruct (live_ids_after_batch (set_inq [[call_add; notify_nope; old_call]] demo)
              0%nat [call_add; notify_nope; old_call] [] eq_refl eq_refl)
    as (s' & ts & H1 & H2 & _).
  exists s', ts. split; assumption.
Defined.

(** X7.  Of two requests of one batch that carry the same non-empty ID
    under accepted version markers, the later one is rejected with
    "duplicate request id": the IDs of a batch are entered one by one, so
    a batch cannot use an ID twice. *)
Theorem duplicate_within_batch (s : Server) (u : gset string)
    (before after : jrequests) (r0 r : jrequest) (i : string) :
  In r0 before -> ID r0 = Some i -> versionOK s (V r0) = true ->
  ID r = Some i -> versionOK s (V r) = true -> i <> ""%string ->
  (snd (resolve_all s u (before ++ r :: after)) : list task) !! length before =
    Some (failed r (Errorf E_InvalidRequest "duplicate request id %q" [i])).
Proof.
  intros Hin0 Hid0 Hv0 Hid Hv Hne.
  rewrite resolve_all_app. cbn [snd].
  pose proof (resolve_all_length s u before) as Hlen.
  rewrite lookup_app_r by lia.
  rewrite Hlen, Nat.sub_diag. cbn [resolve_all].
  pose proof (resolve_all_fst s u before) as Hu.
  set (u1 := fst (resolve_all s u before)) in *.
  assert (i ∈ u1) as Hi.
  { rewrite Hu. apply elem_of_union_r. unfold live_ids.
    apply elem_of_list_to_set, list_elem_of_omap.
    exists r0. split; [apply list_elem_of_In; exact Hin0|].
    unfold accepted_id, id_string. rewrite Hv0, Hid0. cbn.
    apply String.eqb_neq in Hne. now rewrite Hne. }
  pose proof (resolve_duplicate s u1 r i Hid Hne Hv Hi) as Hd.
  destruct (resolve s u1 r) as [u2 t]. cbn [snd] in Hd. subst t.
  destruct (resolve_all s u2 after). reflexivity.
Qed.

Lemma duplicate_within_batch_witness :
  (snd (resolve_all demo ∅ ([call_add] ++ call_fail :: [])) : list task)
    !! length [call_add] =
    Some (failed call_fail (Errorf E_InvalidRequest "duplicate request id %q" ["1"%string])).
Proof.
  apply (duplicate_within_batch demo ∅ [call_add] [] call_add call_fail "1").
  - left. reflexivity.
  - reflexivity.
  - reflexivity.
  - reflexivity.
  - reflexivity.
  - discriminate.
Defined.

(** X8.  A call with an accepted version marker and a fresh non-empty ID
    that names no method, or a method the assigner does not know, is
    rejected with [InvalidRequest] (code -32600), respectively
    [MethodNotFound] (code -32601), and answered under its own ID; its ID
    has been entered into the live-ID set all the same. *)
Theorem rejected_for_method (s : Server) (u : gset string) (r : jrequest)
    (i : string) :
  ID r = Some i -> i <> ""%string -> i ∉ u -> versionOK s (V r) = true ->
  (M r = ""%string ->
     resolve s u r =
       (u ∪ {[ i ]}, failed r (Errorf E_InvalidRequest "empty method name" [])) /\
     response_of (failed r (Errorf E_InvalidRequest "empty method name" [])) =
       Some (error_response (Some i) (Errorf E_InvalidRequest "empty method name" []))) /\
  (M r <> ""%string -> mux s (M r) = None ->
     resolve s u r =
       (u ∪ {[ i ]}, failed r (Errorf E_MethodNotFound "no such method %q" [M r])) /\
     response_of (failed r (Errorf E_MethodNotFound "no such method %q" [M r])) =
       Some (error_response (Some i) (Errorf E_MethodNotFound "no such method %q" [M r]))).
Proof.
  intros Hid Hne Hin Hv.
  assert (bool_decide (i ∉ u) = true) as Hb by (apply bool_decide_eq_true_2; exact Hin).
  apply String.eqb_neq in Hne.
  split.
  - intros Hm. unfold resolve, used_Add, id_string. rewrite Hid, Hv. cbn.
    rewrite Hne. cbn. rewrite Hb. cbn. rewrite Hm. cbn.
    split; [reflexivity|]. unfold response_of, error_response. cbn. now rewrite Hid.
  - intros Hm Hx. unfold resolve, used_Add, id_string. rewrite Hid, Hv. cbn.
    rewrite Hne. cbn. rewrite Hb. cbn.
    apply String.eqb_neq in Hm. rewrite Hm, Hx.
    split; [reflexivity|]. unfold response_of, error_response. cbn. now rewrite Hid.
Qed.

Lemma rejected_for_method_witness :
  resolve demo ∅ (mkJrequest "2.0" (Some "x"%string) "nope" "") =
    (∅ ∪ {[ "x"%string ]},
     failed (mkJrequest "2.0" (Some "x"%string) "nope" "")
       (Errorf E_MethodNotFound "no such method %q" ["nope"%string])).
Proof.
  destruct (rejected_for_method demo ∅ (mkJrequest "2.0" (Some "x"%string) "nope" "") "x")
    as [_ H].
  - reflexivity.
  - discriminate.
  - apply not_elem_of_empty.
  - reflexivity.
  - apply H; [discriminate|reflexivity].
Defined.

Section Responses.

Lemma resolve_resolved s u r : resolved (snd (resolve s u r)).
Proof.
  unfold resolve, used_Add, resolved.
  destruct (negb (versionOK s (V r))); [cbn; split; [reflexivity|left; split; [discriminate|reflexivity]]|].
  destruct (negb (String.eqb (id_string r) "")); cbn.
  - destruct (negb (bool_decide (id_string r ∉ u))); cbn;
      [split; [reflexivity|left; split; [discriminate|reflexivity]]|].
    destruct (String.eqb (M r) ""); cbn;
      [split; [reflexivity|left; split; [discriminate|reflexivity]]|].
    destruct (mux s (M r)); cbn;
      [split; [reflexivity|right; split; [reflexivity|discriminate]]
      |split; [reflexivity|left; split; [discriminate|reflexivity]]].
  - destruct (String.eqb (M r) ""); cbn;
      [split; [reflexivity|left; split; [discriminate|reflexivity]]|].
    destruct (mux s (M r)); cbn;
      [split; [reflexivity|right; split; [reflexivity|discriminate]]
      |split; [reflexivity|left; split; [discriminate|reflexivity]]].
Qed.

Lemma resolve_all_resolved s u next t :
  In t (snd (resolve_all s u next)) -> resolved t /\ In (req t) next.
Proof.
  revert u. induction next as [|r rest IH]; intros u; [intros []|].
  cbn [resolve_all].
  pose proof (resolve_resolved s u r) as H1. pose proof (resolve_req s u r) as H2.
  destruct (resolve s u r) as [u1 t0]. specialize (IH u1).
  destruct (resolve_all s u1 rest) as [u2 ts]. cbn [snd] in *.
  intros [<-|Hin].
  - split; [exact H1|]. left. symmetry. exact H2.
  - destruct (IH Hin) as [Ha Hb]. split; [exact Ha|]. right. exact Hb.
Qed.

Lemma run_tasks_origin s ts ts' t' :
  run_tasks s ts = Ok ts' -> In t' ts' ->
  exists t, In t ts /\ run_task s t = Ok t'.
Proof.
  revert ts'. induction ts as [|t0 rest IH]; intros ts' Hr; cbn [run_tasks] in Hr.
  - injection Hr as <-. intros [].
  - destruct (run_task s t0) as [w0|t0'] eqn:H0; [discriminate|].
    destruct (run_tasks s rest) as [w1|rest']; [discriminate|].
    injection Hr as <-. intros [<-|Hin].
    + exists t0. split; [left; reflexivity|exact H0].
    + destruct (IH rest' eq_refl Hin) as (t & Ht & Hrun).
      exists t. split; [right; exact Ht|exact Hrun].
Qed.

Lemma responses_origin ts r :
  In r (responses ts) -> exists t, In t ts /\ response_of t = Some r.
Proof.
  induction ts as [|t rest IH]; [intros []|]. cbn [responses].
  destruct (response_of t) as [r0|] eqn:Hr.
  - intros [<-|Hin].
    + exists t. split; [left; reflexivity|exact Hr].
    + destruct (IH Hin) as (t1 & H1 & H2). exists t1. split; [right; exact H1|exact H2].
  - intros Hin. destruct (IH Hin) as (t1 & H1 & H2).
    exists t1. split; [right; exact H1|exact H2].
Qed.

Lemma response_of_shape t r :
  response_of t = Some r ->
  rV r = Version /\ rID r = ID (req t) /\
  ((terr t = None /\ rE r = None /\ rR r = val t) \/
   (terr t <> None /\ rE r <> None /\ rR r = None)).
Proof.
  unfold response_of.
  destruct (ID (req t)), (terr t) as [[e|c|k text]|]; intros H;
    try discriminate; injection H as <-; cbn;
    (split; [reflexivity|split; [reflexivity|]]);
    first [left; repeat split; congruence | right; repeat split; congruence].
Qed.

Lemma run_task_result s t t' :
  resolved t -> run_task s t = Ok t' ->
  (terr t' <> None /\ val t' = None) \/ (terr t' = None /\ val t' <> None) \/
  quiet t' = true.
Proof.
  intros (Hval & [[He Hm]|[He Hm]]) Hrun.
  - unfold run_task in Hrun. destruct (terr t) as [e|] eqn:Hte; [|congruence].
    injection Hrun as <-. left. split; congruence.
  - unfold run_task, dispatch in Hrun. rewrite He in Hrun.
    destruct (m t) as [h|]; [|congruence].
    destruct (h _ _) as [[j|e]|e|w]; cbn in Hrun; try discriminate.
    + injection Hrun as <-. right. left. cbn. split; [reflexivity|discriminate].
    + injection Hrun as <-. left. cbn. split; [discriminate|reflexivity].
    + destruct (ID (req t)) eqn:Hid; injection Hrun as <-.
      * left. cbn. split; [discriminate|reflexivity].
      * right. right. unfold quiet. cbn. now rewrite Hid.
Qed.

Lemma run_task_shape s t t' r :
  resolved t -> run_task s t = Ok t' -> response_of t' = Some r ->
  rV r = Version /\ one_of_result_error r /\ rID r = ID (req t).
Proof.
  intros Hres Hrun Hresp.
  destruct (response_of_shape t' r Hresp) as (H1 & H2 & H3).
  split; [exact H1|]. split; [|rewrite H2; now rewrite (run_task_req _ _ _ Hrun)].
  unfold one_of_result_error.
  destruct (run_task_result s t t' Hres Hrun) as [[Ha Hb]|[[Ha Hb]|Hq]].
  - destruct H3 as [(H3 & _)|(_ & H4 & H5)]; [congruence|]. right. auto.
  - destruct H3 as [(_ & H4 & H5)|(H3 & _)]; [|congruence]. left.
    split; [exact H4|congruence].
  - apply response_of_quiet in Hq. congruence.
Qed.

End Responses.

(** X9.  Every response the server builds for a batch it took off the
    queue carries the version marker ["2.0"], the ID of one of the requests
    of the batch, and either a result or an error, never both and never
    neither. *)
Theorem responses_well_formed (s : Server) (u : gset string) (next : jrequests)
    (ts' : tasks) (r : jresponse) :
  run_tasks s (snd (resolve_all s u next)) = Ok ts' ->
  In r (responses ts') ->
  rV r = "2.0"%string /\ one_of_result_error r /\
  exists q, In q next /\ rID r = ID q.
Proof.
  intros Hrun Hin.
  destruct (responses_origin ts' r Hin) as (t' & Ht' & Hresp).
  destruct (run_tasks_origin s _ ts' t' Hrun Ht') as (t & Ht & Hone).
  destruct (resolve_all_resolved s u next t Ht) as [Hres Hq].
  destruct (run_task_shape s t t' r Hres Hone Hresp) as (H1 & H2 & H3).
  split; [exact H1|]. split; [exact H2|].
  exists (req t). split; [exact Hq|exact H3].
Qed.

Lemma responses_well_formed_witness :
  one_of_result_error (mkJresponse Version (Some "1"%string) None (Some "5"%string)).
Proof.
  refine (proj1 (proj2 (responses_well_formed demo ∅ [call_add]
            [mkTask (demo_mux "add") call_add (Some "5"%string) None]
            (mkJresponse Version (Some "1"%string) None (Some "5"%string)) _ _))).
  - vm_compute. reflexivity.
  - left. reflexivity.
Defined.

(** X10.  The responses of a batch follow the order of its requests: the
    IDs of the responses are the IDs of the tasks that are answered (all but
    the notifications that ended without an error), in the order in which
    the requests stood in the batch. *)
Theorem responses_in_request_order (s : Server) (u : gset string)
    (next : jrequests) (ts' : tasks) :
  run_tasks s (snd (resolve_all s u next)) = Ok ts' ->
  map req ts' = next /\
  map rID (responses ts') =
    map (fun t => ID (req t)) (List.filter (fun t => negb (quiet t)) ts').
Proof.
  intros Hrun. split.
  - assert (forall ts ts0, run_tasks s ts = Ok ts0 -> map req ts0 = map req ts) as Hm.
    { induction ts as [|t rest IH]; intros ts0 H; cbn [run_tasks] in H.
      - now injection H as <-.
      - destruct (run_task s t) as [w|t1] eqn:Ht; [discriminate|].
        destruct (run_tasks s rest) as [w|rest1]; [discriminate|].
        injection H as <-. cbn. rewrite (IH rest1 eq_refl), (run_task_req _ _ _ Ht).
        reflexivity. }
    rewrite (Hm _ _ Hrun). apply resolve_all_req.
  - clear Hrun. induction ts' as [|t rest IH]; [reflexivity|].
    cbn [responses List.filter].
    destruct (response_of t) as [r|] eqn:Hr.
    + assert (quiet t = false) as Hq.
      { destruct (quiet t) eqn:Hq; [|reflexivity].
        apply response_of_quiet in Hq. congruence. }
      rewrite Hq. cbn [negb map]. rewrite IH. f_equal.
      unfold response_of in Hr.
      destruct (ID (req t)), (terr t) as [[e|c|k text]|];
        try discriminate; injection Hr as <-; reflexivity.
    + apply response_of_quiet in Hr. rewrite Hr. cbn [negb]. exact IH.
Qed.

Lemma responses_in_request_order_witness :
  map rID (responses [mkTask (demo_mux "add") call_add (Some "5"%string) None]) =
  [Some "1"%string].
Proof.
  refine (proj2 (responses_in_request_order demo ∅ [call_add]
                   [mkTask (demo_mux "add") call_add (Some "5"%string) None] _)).
  vm_compute. reflexivity.
Defined.

(** X11.  A notification that reaches its handler is never answered for
    what the handler reports: whether the handler returns a value that
    marshals or returns an error, the task ends without an error and no
    response is built for it. *)
Theorem notification_outcome_dropped (s : Server) (t : task) (h : Method) :
  m t = Some h -> terr t = None -> ID (req t) = None ->
  (forall e, h (reqctx s (request_of t)) (request_of t) = CallErr e ->
     exists t', run_task s t = Ok t' /\ terr t' = None /\ response_of t' = None) /\
  (forall j, h (reqctx s (request_of t)) (request_of t) = CallOk (Value j) ->
     exists t', run_task s t = Ok t' /\ terr t' = None /\ response_of t' = None).
Proof.
  intros Hm He Hid. split.
  - intros e Hc. eexists. unfold run_task, dispatch. rewrite He, Hm.
    change (mkRequest (ID (req t)) (M (req t)) (P (req t))) with (request_of t).
    rewrite Hc. cbn. rewrite Hid. split; [reflexivity|].
    split; [reflexivity|]. unfold response_of. cbn. now rewrite Hid.
  - intros j Hc. eexists. unfold run_task, dispatch. rewrite He, Hm.
    change (mkRequest (ID (req t)) (M (req t)) (P (req t))) with (request_of t).
    rewrite Hc. cbn. split; [reflexivity|].
    split; [reflexivity|]. unfold response_of. cbn. now rewrite Hid.
Qed.

Lemma notification_outcome_dropped_witness :
  exists t',
    run_task demo (mkTask (demo_mux "fail") (mkJrequest "2.0" None "fail" "") None None)
    = Ok t' /\ terr t' = None /\ response_of t' = None.
Proof.
  destruct (notification_outcome_dropped demo
              (mkTask (demo_mux "fail") (mkJrequest "2.0" None "fail" "") None None)
              (fun _ _ => CallErr (EPlain KOther "out of luck"))
              eq_refl eq_refl eq_refl) as [H _].
  exact (H (EPlain KOther "out of luck") eq_refl).
Defined.

(** X12.  What a call (ID present) is answered with, by what its handler
    does: a value that marshals is the result; a structured [*Error] is
    sent with its own code, message and data; a bare [Code] is sent with
    that code; a value that does not marshal is an [InternalError], like
    any other plain error. *)
Theorem call_outcomes (s : Server) (t : task) (h : Method) (i : string) :
  m t = Some h -> terr t = None -> ID (req t) = Some i ->
  let out := h (reqctx s (request_of t)) (request_of t) in
  (forall j, out = CallOk (Value j) ->
     exists t', run_task s t = Ok t' /\
       response_of t' = Some (mkJresponse Version (Some i) None (Some j))) /\
  (forall e, out = CallErr (EError e) ->
     exists t', run_task s t = Ok t' /\
       response_of t' = Some (error_response (Some i) e)) /\
  (forall c, out = CallErr (ECode c) ->
     exists t', run_task s t = Ok t' /\
       response_of t' =
         Some (mkJresponse Version (Some i) (Some (mkJerror c (CodeName c) None)) None)) /\
  (forall k text, out = CallOk (BadValue (EPlain k text)) ->
     exists t', run_task s t = Ok t' /\
       response_of t' =
         Some (mkJresponse Version (Some i)
                 (Some (jerrorf E_InternalError "internal error: %v" [text])) None)).
Proof.
  intros Hm He Hid out. subst out.
  repeat split; intros; eexists; unfold run_task, dispatch; rewrite He, Hm;
    change (mkRequest (ID (req t)) (M (req t)) (P (req t))) with (request_of t);
    rewrite H; cbn; rewrite ?Hid; (split; [reflexivity|]);
    unfold response_of; cbn; rewrite Hid; reflexivity.
Qed.

Lemma call_outcomes_witness :
  exists t',
    run_task demo (mkTask (demo_mux "add") call_add None None) = Ok t' /\
    response_of t' = Some (mkJresponse Version (Some "1"%string) None (Some "5"%string)).
Proof.
  destruct (call_outcomes demo (mkTask (demo_mux "add") call_add None None)
              (fun _ _ => CallOk (Value "5")) "1" eq_refl eq_refl eq_refl)
    as (H & _).
  exact (H "5"%string eq_refl).
Defined.

(* ===================================================================== *)
(** ** Further properties of the framing catalogue *)
(* ===================================================================== *)

Section Catalogue.

Import Chanutil.

Lemma cut_prefix_spec p s t : cut_prefix p s = Some t <-> s = (p +:+ t)%string.
Proof.
  revert s. induction p as [|a p IH]; intros s.
  - change (""%string +:+ t) with t. cbn. split; congruence.
  - change (String a p +:+ t) with (String a (p +:+ t)).
    destruct s as [|b s]; cbn; [split; discriminate|].
    destruct (Ascii.eqb a b) eqn:E.
    + apply Ascii.eqb_eq in E. subst b. rewrite IH. split; congruence.
    + apply Ascii.eqb_neq in E. split; [discriminate|congruence].
Qed.

Lemma string_length_append p t :
  String.length (p +:+ t) = (String.length p + String.length t)%nat.
Proof.
  induction p as [|a p IH]; [reflexivity|].
  change (String a p +:+ t) with (String a (p +:+ t)). cbn. now rewrite IH.
Qed.

Lemma append_longer p t : p <> ""%string -> t <> (p +:+ t)%string.
Proof.
  intros Hp H. apply (f_equal String.length) in H.
  rewrite string_length_append in H. destruct p; [congruence|]. cbn in H. lia.
Qed.

Lemma Framing_header_iff name t :
  Framing name = Some (Channel.Header t) <-> name = ("header:" +:+ t)%string.
Proof.
  unfold Framing, TrimPrefix.
  destruct (cut_prefix "header:" name) as [t0|] eqn:Hc.
  - apply cut_prefix_spec in Hc. subst name.
    assert (String.eqb t0 ("header:" +:+ t0) = false) as ->
      by (apply String.eqb_neq, append_longer; discriminate).
    cbn [negb]. split.
    + intros H. injection H as ->. reflexivity.
    + intros H. apply (inj (String.append "header:")) in H. now subst t0.
  - rewrite String.eqb_refl. cbn [negb]. split.
    + unfold framings. cbn [list_to_map foldr].
      rewrite !lookup_insert, lookup_empty.
      repeat case_decide; discriminate.
    + intros H. apply cut_prefix_spec in H. congruence.
Qed.

End Catalogue.

(** X14.  [Framing] knows a name exactly when the name starts with
    ["header:"] or is one of ["chunked"], ["decimal"], ["line"], ["lsp"],
    ["raw"], ["varint"], spelled so; every other name, among them the empty
    name and names in another case, yields nil.  A header framing is what
    the names [header:t] yield and no others, with [t] the text after the
    prefix, which may be empty. *)
Theorem Framing_known_names (name : string) :
  (Chanutil.Framing name <> None <->
     (exists t, name = ("header:" +:+ t)%string) \/
     In name ["chunked"; "decimal"; "line"; "lsp"; "raw"; "varint"]%string) /\
  (forall t, Chanutil.Framing name = Some (Channel.Header t) <->
             name = ("header:" +:+ t)%string).
Proof.
  split; [|intros t; apply Framing_header_iff].
  unfold Chanutil.Framing, Chanutil.TrimPrefix.
  destruct (Chanutil.cut_prefix "header:" name) as [t0|] eqn:Hc.
  - apply cut_prefix_spec in Hc. subst name.
    assert (String.eqb t0 ("header:" +:+ t0) = false) as ->
      by (apply String.eqb_neq, append_longer; discriminate).
    cbn [negb]. split; [intros _; left; eauto|discriminate].
  - rewrite String.eqb_refl. cbn [negb].
    unfold Chanutil.framings. cbn [list_to_map foldr].
    rewrite !lookup_insert, lookup_empty. cbn [fst snd In]. split.
    + intros H. right. repeat case_decide; try congruence; subst; tauto.
    + intros [[t Ht]|Hin].
      * apply cut_prefix_spec in Ht. congruence.
      * repeat case_decide; try discriminate.
        destruct Hin as [E|[E|[E|[E|[E|[E|[]]]]]]]; congruence.
Qed.

(* ===================================================================== *)
(** ** Further properties of the LSP channel *)
(* ===================================================================== *)

Section Decimal.

Import Channel.

Lemma digits_uint d acc :
  digits (Z.of_nat acc) (uint_bytes d) = Some (Z.of_nat (Nat.of_uint_acc d acc)).
Proof.
  revert acc. induction d; intros acc; cbn [uint_bytes digits Nat.of_uint_acc];
    [reflexivity|..];
    match goal with
    | |- context [digit ?c] =>
        let v := eval vm_compute in (digit c) in change (digit c) with v
    end;
    cbv iota beta; rewrite Nat.tail_mul_spec;
    match goal with
    | |- digits ?z _ = Some (Z.of_nat (Nat.of_uint_acc _ ?k)) =>
        replace z with (Z.of_nat k) by lia
    end; apply IHd.
Qed.

Lemma uint_bytes_Forall (P : ascii -> Prop) d :
  Forall P (B "0123456789") -> Forall P (uint_bytes d).
Proof.
  intros H. cbn in H. repeat (apply Forall_cons in H as [? H]).
  induction d; cbn [uint_bytes]; constructor; assumption.
Qed.

Lemma Atoi_uint d :
  d <> Decimal.Nil -> Atoi (uint_bytes d) = in_int (Z.of_nat (Nat.of_uint d)).
Proof.
  intros Hd. pose proof (digits_uint d 0) as H. change (Z.of_nat 0) with 0 in H.
  fold (Nat.of_uint d) in H.
  destruct d; [congruence|..]; cbn [uint_bytes] in *; unfold Atoi;
    match goal with
    | |- context [Ascii.eqb ?c "-"] =>
        change (Ascii.eqb c "-") with false; change (Ascii.eqb c "+") with false
    end; cbv iota; unfold unsigned; rewrite H; reflexivity.
Qed.

Lemma to_uint_nonnil n : Nat.to_uint n <> Decimal.Nil.
Proof.
  rewrite <- (DecimalNat.Unsigned.of_to n) at 1.
  rewrite DecimalNat.Unsigned.to_of. apply DecimalFacts.unorm_nonnil.
Qed.

Lemma decimal_nonempty n : decimal n <> [].
Proof.
  unfold decimal. pose proof (to_uint_nonnil n) as H.
  destruct (Nat.to_uint n); [congruence|..]; discriminate.
Qed.

End Decimal.

Lemma Atoi_decimal_fits (n : nat) :
  Channel.Atoi (Channel.decimal n) =
    if Z.of_nat n <=? 2 ^ 63 - 1 then Some (Z.of_nat n) else None.
Proof.
  unfold Channel.decimal. rewrite Atoi_uint by apply to_uint_nonnil.
  rewrite DecimalNat.Unsigned.of_to. unfold Channel.in_int.
  assert ((- 2 ^ 63 <=? Z.of_nat n) = true) as -> by (apply Z.leb_le; lia).
  reflexivity.
Qed.

(** X15.  [Atoi] reads back what [%d] prints: the decimal text of a
    length [n] is read as [n] when [n] fits a 64-bit [int], and is refused
    when it does not; with a minus sign in front it is read as [-n], down
    to the least [int], and with a plus sign as [n]. *)
Theorem Atoi_decimal (n : nat) :
  Channel.Atoi (Channel.decimal n) =
    (if Z.of_nat n <=? 2 ^ 63 - 1 then Some (Z.of_nat n) else None) /\
  Channel.Atoi ("-"%char :: Channel.decimal n) =
    (if Z.of_nat n <=? 2 ^ 63 then Some (- Z.of_nat n) else None) /\
  Channel.Atoi ("+"%char :: Channel.decimal n) = Channel.Atoi (Channel.decimal n).
Proof.
  assert (Channel.unsigned (Channel.decimal n) = Some (Z.of_nat n)) as Hu.
  { unfold Channel.unsigned. pose proof (decimal_nonempty n) as Hne.
    destruct (Channel.decimal n) as [|c l] eqn:Hd; [congruence|].
    rewrite <- Hd. unfold Channel.decimal.
    pose proof (digits_uint (Nat.to_uint n) 0) as H. change (Z.of_nat 0) with 0 in H.
    rewrite H. fold (Nat.of_uint (Nat.to_uint n)).
    now rewrite DecimalNat.Unsigned.of_to. }
  split; [apply Atoi_decimal_fits|]. split.
  - unfold Channel.Atoi. change (Ascii.eqb "-" "-") with true. cbv iota.
    rewrite Hu. unfold Channel.in_int.
    destruct (Z.of_nat n <=? 2 ^ 63) eqn:E.
    + apply Z.leb_le in E.
      assert ((- 2 ^ 63 <=? - Z.of_nat n) = true) as -> by (apply Z.leb_le; lia).
      assert ((- Z.of_nat n <=? 2 ^ 63 - 1) = true) as -> by (apply Z.leb_le; lia).
      reflexivity.
    + apply Z.leb_gt in E.
      assert ((- 2 ^ 63 <=? - Z.of_nat n) = false) as -> by (apply Z.leb_gt; lia).
      reflexivity.
  - rewrite Atoi_decimal_fits.
    unfold Channel.Atoi. change (Ascii.eqb "+" "-") with false.
    change (Ascii.eqb "+" "+") with true. cbv iota.
    rewrite Hu. unfold Channel.in_int.
    assert ((- 2 ^ 63 <=? Z.of_nat n) = true) as -> by (apply Z.leb_le; lia).
    reflexivity.
Qed.

Section Chunking.

Import Channel.

Lemma cut_line_none bs : ~ In LF bs -> cut_line bs = None.
Proof.
  induction bs as [|c rest IH]; [reflexivity|]. intros Hn. cbn.
  destruct (Ascii.eqb c LF) eqn:E.
  - apply Ascii.eqb_eq in E. exfalso. apply Hn. left. exact E.
  - rewrite IH; [reflexivity|]. intros H. apply Hn. right. exact H.
Qed.

Lemma cut_line_some pre post :
  ~ In LF pre -> cut_line (pre ++ LF :: post) = Some (pre ++ [LF], post).
Proof.
  induction pre as [|c pre IH]; intros Hn; [reflexivity|].
  cbn. destruct (Ascii.eqb c LF) eqn:E.
  - apply Ascii.eqb_eq in E. exfalso. apply Hn. left. exact E.
  - rewrite IH; [reflexivity|]. intros H. apply Hn. right. exact H.
Qed.

Lemma split_first bs :
  In LF bs -> exists pre post, bs = pre ++ LF :: post /\ ~ In LF pre.
Proof.
  induction bs as [|c rest IH]; [intros []|]. intros Hin.
  destruct (ascii_dec c LF) as [->|Hc].
  - exists [], rest. split; [reflexivity|intros []].
  - destruct Hin as [H|H]; [congruence|].
    destruct (IH H) as (pre & post & -> & Hn).
    exists (c :: pre), post. split; [reflexivity|].
    intros [E|E]; [congruence|exact (Hn E)].
Qed.

Lemma first_unique pre1 post1 pre2 post2 :
  pre1 ++ LF :: post1 = pre2 ++ LF :: post2 ->
  ~ In LF pre1 -> ~ In LF pre2 -> pre1 = pre2 /\ post1 = post2.
Proof.
  revert pre2. induction pre1 as [|c pre1 IH]; intros [|c2 pre2] H H1 H2; cbn in H.
  - injection H as ->. auto.
  - injection H as <- _. exfalso. apply H2. left. reflexivity.
  - injection H as -> _. exfalso. apply H1. left. reflexivity.
  - injection H as -> H.
    destruct (IH pre2 H) as [-> ->].
    + intros E. apply H1. right. exact E.
    + intros E. apply H2. right. exact E.
    + auto.
Qed.

Lemma prefix_no_LF bs c line rest :
  bs ++ c = line ++ LF :: rest -> ~ In LF bs -> ~ In LF line ->
  exists line', line = bs ++ line' /\ c = line' ++ LF :: rest.
Proof.
  revert line. induction bs as [|b bs IH]; intros line H H1 H2.
  - exists line. auto.
  - destruct line as [|l line]; cbn in H.
    + injection H as -> _. exfalso. apply H1. left. reflexivity.
    + injection H as -> H.
      destruct (IH line H) as (line' & -> & ->).
      * intros E. apply H1. right. exact E.
      * intros E. apply H2. right. exact E.
      * exists line'. auto.
Qed.

Lemma chunked_unread post chunks tail :
  exists chunks', unread post (chunked chunks tail) = chunked chunks' tail /\
                  concat chunks' = post ++ concat chunks.
Proof.
  destruct post as [|c post].
  - exists chunks. split; reflexivity.
  - exists ((c :: post) :: chunks). split; reflexivity.
Qed.

End Chunking.

Lemma ReadString_line (chunks : list Channel.bytes) (tail : Channel.reader) :
  forall acc line rest,
    concat chunks = line ++ Channel.LF :: rest -> ~ In Channel.LF line ->
    exists chunks',
      Channel.ReadString acc (chunked chunks tail) =
        (acc ++ line ++ [Channel.LF], None, chunked chunks' tail) /\
      concat chunks' = rest.
Proof.
  induction chunks as [|bs chunks IH]; intros acc line rest Hc Hn.
  - cbn in Hc. destruct line; discriminate.
  - cbn [concat] in Hc. unfold chunked. cbn [map app Channel.ReadString].
    destruct (in_dec ascii_dec Channel.LF bs) as [Hin|Hin].
    + destruct (split_first bs Hin) as (pre & post & -> & Hpre).
      rewrite cut_line_some by exact Hpre.
      rewrite <- app_assoc in Hc. cbn [app] in Hc.
      destruct (first_unique _ _ _ _ Hc Hpre Hn) as [-> <-].
      destruct (chunked_unread post chunks tail) as (chunks' & Hu & Hcc).
      exists chunks'. unfold chunked in Hu. rewrite Hu. split; [reflexivity|exact Hcc].
    + rewrite cut_line_none by exact Hin.
      destruct (prefix_no_LF _ _ _ _ Hc Hin Hn) as (line' & -> & Hc').
      destruct (IH (acc ++ bs) line' rest Hc') as (chunks' & Hr & Hcc).
      { intros E. apply Hn. apply in_or_app. right. exact E. }
      exists chunks'. unfold chunked in Hr. rewrite Hr.
      split; [|exact Hcc]. now rewrite <- !app_assoc.
Qed.

Lemma ReadString_eof (chunks : list Channel.bytes) :
  forall acc,
    ~ In Channel.LF (concat chunks) ->
    Channel.ReadString acc (chunked chunks []) =
      (acc ++ concat chunks, Some Channel.EOF, []).
Proof.
  induction chunks as [|bs chunks IH]; intros acc Hn.
  - cbn. now rewrite app_nil_r.
  - cbn [concat] in Hn. unfold chunked. cbn [map app Channel.ReadString].
    rewrite cut_line_none by (intros E; apply Hn, in_or_app; left; exact E).
    unfold chunked in IH. rewrite IH by (intros E; apply Hn, in_or_app; right; exact E).
    cbn [concat]. now rewrite <- app_assoc.
Qed.

(** X16.  [ReadString] does not depend on how the reader cuts its bytes
    into pieces: if the bytes to come hold a line feed, it returns the text
    up to and including the first one and leaves exactly the bytes after
    it; if they hold none and the stream ends, it returns all of them
    together with [io.EOF]. *)
Theorem ReadString_any_chunking (chunks : list Channel.bytes)
    (tail : Channel.reader) (acc : Channel.bytes) :
  (forall line rest,
     concat chunks = line ++ Channel.LF :: rest -> ~ In Channel.LF line ->
     exists chunks',
       Channel.ReadString acc (chunked chunks tail) =
         (acc ++ line ++ [Channel.LF], None, chunked chunks' tail) /\
       concat chunks' = rest) /\
  (~ In Channel.LF (concat chunks) ->
     Channel.ReadString acc (chunked chunks []) =
       (acc ++ concat chunks, Some Channel.EOF, [])).
Proof.
  split.
  - intros line rest Hc Hn. apply ReadString_line; assumption.
  - intros Hn. apply ReadString_eof. exact Hn.
Qed.

Lemma ReadString_any_chunking_witness :
  exists chunks',
    Channel.ReadString [] (chunked [Channel.B "ab"; Channel.B "c"; Channel.LF :: Channel.B "d"] [])
    = ([] ++ Channel.B "abc" ++ [Channel.LF], None, chunked chunks' []) /\
    concat chunks' = Channel.B "d".
Proof.
  apply (proj1 (ReadString_any_chunking
                  [Channel.B "ab"; Channel.B "c"; Channel.LF :: Channel.B "d"] [] [])).
  - reflexivity.
  - vm_compute. intros [H|[H|[H|[]]]]; discriminate.
Defined.

Lemma ReadFull_enough (chunks : list Channel.bytes) (tail : Channel.reader) :
  forall n acc,
    (n <= length (concat chunks))%nat ->
    exists chunks',
      Channel.ReadFull n acc (chunked chunks tail) =
        (acc ++ take n (concat chunks), None, chunked chunks' tail) /\
      concat chunks' = drop n (concat chunks).
Proof.
  induction chunks as [|bs chunks IH]; intros n acc Hn.
  - cbn in Hn. assert (n = 0%nat) as -> by lia.
    exists []. cbn. rewrite app_nil_r. split; [destruct tail; reflexivity|reflexivity].
  - destruct n as [|n].
    + exists (bs :: chunks). cbn. rewrite app_nil_r. split; reflexivity.
    + unfold chunked. cbn [map app Channel.ReadFull concat].
      destruct (S n <=? length bs)%nat eqn:Hle.
      *  apply Nat.leb_le in Hle.
         destruct (chunked_unread (drop (S n) bs) chunks tail) as (chunks' & Hu & Hcc).
         exists chunks'. unfold chunked in Hu. rewrite Hu.
         rewrite take_app_le, drop_app_le by exact Hle.
         split; [reflexivity|exact Hcc].
      *  apply Nat.leb_gt in Hle. cbn [concat] in Hn. rewrite length_app in Hn.
         destruct (IH (S n - length bs)%nat (acc ++ bs)) as (chunks' & Hr & Hcc); [lia|].
         exists chunks'. unfold chunked in Hr. rewrite Hr.
         rewrite take_app_ge, drop_app_ge by lia.
         split; [|exact Hcc]. now rewrite <- app_assoc.
Qed.

Lemma ReadFull_short (chunks : list Channel.bytes) :
  forall n acc,
    (length (concat chunks) < n)%nat ->
    Channel.ReadFull n acc (chunked chunks []) =
      (acc ++ concat chunks,
       Some (match acc ++ concat chunks with
             | [] => Channel.EOF
             | _ :: _ => Channel.ErrUnexpectedEOF
             end),
       []).
Proof.
  induction chunks as [|bs chunks IH]; intros n acc Hn.
  - cbn in Hn. destruct n as [|n]; [lia|]. cbn. rewrite app_nil_r.
    destruct acc; reflexivity.
  - cbn [concat] in Hn. rewrite length_app in Hn.
    destruct n as [|n]; [lia|].
    unfold chunked. cbn [map app Channel.ReadFull concat].
    assert ((S n <=? length bs)%nat = false) as -> by (apply Nat.leb_gt; lia).
    unfold chunked in IH. rewrite IH by lia.
    now rewrite <- !app_assoc.
Qed.

(** X17.  [io.ReadFull] takes exactly the bytes it is asked for, however
    many reads that needs: with at least [n] bytes to come it returns the
    first [n] and leaves the rest unread; with fewer, and the stream at its
    end, it returns what there was with [io.ErrUnexpectedEOF], or with
    [io.EOF] when there was nothing at all. *)
Theorem ReadFull_exact (n : nat) (chunks : list Channel.bytes)
    (tail : Channel.reader) (acc : Channel.bytes) :
  ((n <= length (concat chunks))%nat ->
     exists chunks',
       Channel.ReadFull n acc (chunked chunks tail) =
         (acc ++ take n (concat chunks), None, chunked chunks' tail) /\
       concat chunks' = drop n (concat chunks)) /\
  ((length (concat chunks) < n)%nat ->
     Channel.ReadFull n acc (chunked chunks []) =
       (acc ++ concat chunks,
        Some (match acc ++ concat chunks with
              | [] => Channel.EOF
              | _ :: _ => Channel.ErrUnexpectedEOF
              end),
        [])).
Proof.
  split.
  - intros Hn. apply ReadFull_enough. exact Hn.
  - intros Hn. apply ReadFull_short. exact Hn.
Qed.

Lemma ReadFull_exact_witness :
  exists chunks',
    Channel.ReadFull 3 [] (chunked [Channel.B "ab"; Channel.B "cde"] [])
    = ([] ++ take 3 (concat [Channel.B "ab"; Channel.B "cde"]), None, chunked chunks' []) /\
    concat chunks' = drop 3 (concat [Channel.B "ab"; Channel.B "cde"]).
Proof.
  apply (proj1 (ReadFull_exact 3 [Channel.B "ab"; Channel.B "cde"] [] [])).
  cbn. lia.
Defined.

Section RoundTrip.

Import Channel.

Lemma drop_while_all f l1 l2 :
  Forall (fun c => f c = true) l1 -> drop_while f (l1 ++ l2) = drop_while f l2.
Proof.
  induction 1 as [|c l1 Hc _ IH]; [reflexivity|]. cbn. now rewrite Hc.
Qed.

Lemma TrimRight_suffix f X suffix :
  Forall (fun c => f c = true) suffix -> TrimRight f (X ++ suffix) = TrimRight f X.
Proof.
  intros H. unfold TrimRight. rewrite rev_app_distr.
  rewrite drop_while_all; [reflexivity|]. apply Forall_rev. exact H.
Qed.

Lemma TrimRight_last f X c : f c = false -> TrimRight f (X ++ [c]) = X ++ [c].
Proof.
  intros H. unfold TrimRight. rewrite rev_app_distr. cbn. rewrite H. cbn.
  now rewrite rev_involutive.
Qed.

Lemma decimal_last n :
  exists X c, decimal n = X ++ [c] /\ Forall (fun c => In c (B "0123456789")) (X ++ [c]).
Proof.
  destruct (exists_last (decimal_nonempty n)) as (X & c & H).
  exists X, c. split; [exact H|]. rewrite <- H. unfold decimal.
  apply (uint_bytes_Forall (fun c => In c (B "0123456789"))).
  rewrite Forall_forall. intros x Hx. apply list_elem_of_In. exact Hx.
Qed.

Lemma digit_facts c :
  In c (B "0123456789") ->
  c <> LF /\ is_crlf c = false /\ is_space c = false /\ (nat_of_ascii c < 128)%nat.
Proof.
  cbn. intros H.
  repeat (destruct H as [<-|H];
          [repeat split;
           first [discriminate | reflexivity | (apply Nat.ltb_lt; reflexivity)]|]).
  destruct H.
Qed.

Lemma decimal_no_LF n : ~ In LF (decimal n).
Proof.
  destruct (decimal_last n) as (X & c & -> & HF). intros Hin.
  rewrite Forall_forall in HF. apply list_elem_of_In in Hin.
  destruct (digit_facts LF (HF _ Hin)) as [H _]. congruence.
Qed.

Lemma decimal_chars n :
  exists X c, decimal n = X ++ [c] /\
    is_crlf c = false /\ is_space c = false /\
    (forall x, In x (X ++ [c]) -> is_space x = false) /\
    (forall x, In x (X ++ [c]) -> (nat_of_ascii x < 128)%nat).
Proof.
  destruct (decimal_last n) as (X & c & Hd & HF). rewrite Forall_forall in HF.
  exists X, c. split; [exact Hd|].
  assert (c ∈ X ++ [c]) as Hc by (apply elem_of_app; right; constructor).
  destruct (digit_facts c (HF c Hc)) as (_ & H1 & H2 & _).
  split; [exact H1|]. split; [exact H2|]. split.
  - intros x Hx. apply list_elem_of_In in Hx.
    now destruct (digit_facts x (HF x Hx)) as (_ & _ & H3 & _).
  - intros x Hx. apply list_elem_of_In in Hx.
    now destruct (digit_facts x (HF x Hx)) as (_ & _ & _ & H4).
Qed.

Lemma trim_front_plain back c rest :
  is_space c = false -> (nat_of_ascii c < 128)%nat ->
  trim_front back (c :: rest) = c :: rest.
Proof.
  intros Hs Hc. cbn [trim_front]. rewrite Hs.
  destruct rest as [|c2 r2]; [reflexivity|].
  assert ((if back then space2 c2 c else space2 c c2) = false) as ->.
  { destruct back; unfold space2; cbv zeta.
    - destruct (nat_of_ascii c2 =? 194)%nat; [|reflexivity]. cbn [andb].
      apply orb_false_iff. split; apply Nat.eqb_neq; lia.
    - assert ((nat_of_ascii c =? 194)%nat = false) as -> by (apply Nat.eqb_neq; lia).
      reflexivity. }
  destruct r2 as [|c3 r3]; [reflexivity|].
  assert ((if back then space3 c3 c2 c else space3 c c2 c3) = false) as ->; [|reflexivity].
  destruct back; unfold space3; cbv zeta.
  - assert ((nat_of_ascii c =? 128)%nat = false) as -> by (apply Nat.eqb_neq; lia).
    assert ((128 <=? nat_of_ascii c)%nat = false) as -> by (apply Nat.leb_gt; lia).
    assert ((nat_of_ascii c =? 168)%nat = false) as -> by (apply Nat.eqb_neq; lia).
    assert ((nat_of_ascii c =? 169)%nat = false) as -> by (apply Nat.eqb_neq; lia).
    assert ((nat_of_ascii c =? 175)%nat = false) as -> by (apply Nat.eqb_neq; lia).
    assert ((nat_of_ascii c =? 159)%nat = false) as -> by (apply Nat.eqb_neq; lia).
    rewrite !andb_false_r. reflexivity.
  - assert ((nat_of_ascii c =? 225)%nat = false) as -> by (apply Nat.eqb_neq; lia).
    assert ((nat_of_ascii c =? 226)%nat = false) as -> by (apply Nat.eqb_neq; lia).
    assert ((nat_of_ascii c =? 227)%nat = false) as -> by (apply Nat.eqb_neq; lia).
    reflexivity.
Qed.

Lemma TrimSpace_decimal n : TrimSpace (" "%char :: decimal n) = decimal n.
Proof.
  destruct (decimal_chars n) as (X & c & Hd & _ & Hs & Hall & Hlow). unfold TrimSpace.
  change (trim_front false (" "%char :: decimal n)) with (trim_front false (decimal n)).
  assert (trim_front false (decimal n) = decimal n) as ->.
  { rewrite Hd. destruct X as [|x X]; cbn [app].
    - apply trim_front_plain; [exact Hs|]. apply Hlow. left. reflexivity.
    - apply trim_front_plain; [|apply Hlow; left; reflexivity].
      apply Hall. left. reflexivity. }
  rewrite Hd, rev_app_distr. cbn [rev app].
  rewrite trim_front_plain; [|exact Hs|apply Hlow, in_or_app; right; left; reflexivity].
  change (c :: rev X) with (rev [c] ++ rev X). rewrite <- rev_app_distr.
  apply rev_involutive.
Qed.

Lemma TrimRight_header n :
  TrimRight is_crlf (B "Content-Length: " ++ decimal n ++ [CR; LF]) =
  B "Content-Length: " ++ decimal n.
Proof.
  rewrite (app_assoc _ _ [CR; LF]).
  rewrite TrimRight_suffix by (repeat constructor).
  destruct (decimal_chars n) as (X & c & Hd & Hc & _). rewrite Hd, app_assoc.
  apply TrimRight_last. exact Hc.
Qed.

Lemma header_turn_line h rd raw rd' name value :
  ReadString [] rd = (raw, None, rd') ->
  TrimRight is_crlf raw <> [] ->
  SplitN2 (TrimRight is_crlf raw) = Some (name, value) ->
  header_turn h rd = Continue (<[ ToLower name := TrimSpace value ]> h) rd'.
Proof.
  intros Hr Hne Hs. unfold header_turn. rewrite Hr.
  destruct (TrimRight is_crlf raw) as [|c l]; [congruence|].
  rewrite Hs. reflexivity.
Qed.

Lemma SplitN2_header d :
  SplitN2 (B "Content-Length: " ++ d) = Some (B "Content-Length", " "%char :: d).
Proof. reflexivity. Qed.

(** The first turn of the header loop on a frame written by [Send]. *)
Lemma header_turn_length n h chunks tail rest :
  concat chunks = B "Content-Length: " ++ decimal n ++ [CR; LF] ++ rest ->
  exists chunks',
    header_turn h (chunked chunks tail) =
      Continue (<[ content_length := decimal n ]> h) (chunked chunks' tail) /\
    concat chunks' = rest.
Proof.
  intros Hc.
  destruct (ReadString_line chunks tail []
              (B "Content-Length: " ++ decimal n ++ [CR]) rest) as (chunks' & Hr & Hcc).
  { rewrite Hc. rewrite <- !app_assoc. reflexivity. }
  { intros Hin. apply in_app_or in Hin as [Hin|Hin].
    - cbn in Hin. repeat (destruct Hin as [Hin|Hin]; [discriminate|]). exact Hin.
    - apply in_app_or in Hin as [Hin|Hin]; [exact (decimal_no_LF n Hin)|].
      destruct Hin as [Hin|[]]. discriminate. }
  exists chunks'. split; [|exact Hcc].
  cbn [app] in Hr.
  replace ((B "Content-Length: " ++ decimal n ++ [CR]) ++ [LF])
    with (B "Content-Length: " ++ decimal n ++ [CR; LF]) in Hr
    by (rewrite <- !app_assoc; reflexivity).
  rewrite (header_turn_line h _ _ _ (B "Content-Length") (" "%char :: decimal n) Hr).
  - rewrite TrimSpace_decimal. reflexivity.
  - rewrite TrimRight_header. discriminate.
  - rewrite TrimRight_header. apply SplitN2_header.
Qed.

(** The turn that meets the blank line. *)
Lemma header_turn_blank h chunks tail rest :
  concat chunks = [CR; LF] ++ rest ->
  exists chunks',
    header_turn h (chunked chunks tail) = Break h (chunked chunks' tail) /\
    concat chunks' = rest.
Proof.
  intros Hc.
  destruct (ReadString_line chunks tail [] [CR] rest) as (chunks' & Hr & Hcc).
  { exact Hc. }
  { intros [Hin|[]]. discriminate. }
  exists chunks'. split; [|exact Hcc].
  unfold header_turn. rewrite Hr. reflexivity.
Qed.

Lemma Recv_frame msg chunks tail rest :
  Z.of_nat (length msg) <= 2 ^ 63 - 1 ->
  concat chunks = frame_header msg ++ msg ++ rest ->
  exists chunks',
    Recv (chunked chunks tail) = Some (Message msg (chunked chunks' tail)) /\
    concat chunks' = rest.
Proof.
  intros Hfit Hc. unfold frame_header in Hc.
  destruct (header_turn_length (length msg) ∅ chunks tail ([CR; LF] ++ msg ++ rest))
    as (chunks1 & H1 & Hc1).
  { rewrite Hc. rewrite <- !app_assoc. reflexivity. }
  destruct (header_turn_blank (<[ content_length := decimal (length msg) ]> ∅)
              chunks1 tail (msg ++ rest) Hc1) as (chunks2 & H2 & Hc2).
  destruct (ReadFull_enough chunks2 tail (length msg) [])
    as (chunks3 & H3 & Hc3).
  { rewrite Hc2, length_app. lia. }
  exists chunks3. split.
  - unfold Recv. rewrite Recv_from_one_turn, H1, Recv_from_one_turn, H2.
    unfold body. fold content_length. rewrite lookup_insert_eq.
    rewrite Atoi_decimal_fits.
    assert ((Z.of_nat (length msg) <=? 2 ^ 63 - 1) = true) as -> by (apply Z.leb_le; exact Hfit).
    assert ((Z.of_nat (length msg) <? 0) = false) as -> by (apply Z.ltb_ge; lia).
    rewrite Nat2Z.id, H3, Hc2, take_app_length. reflexivity.
  - rewrite Hc3, Hc2, drop_app_length. reflexivity.
Qed.

Lemma Send_written msg ws :
  Send msg (mkWriter ws None) = (mkWriter (ws ++ [frame_header msg; msg]) None, None).
Proof. unfold Send, Write. cbn. now rewrite <- app_assoc. Qed.

End RoundTrip.

(** X18.  Round trip.  On a writer that takes its writes, [Send] writes the
    header [Content-Length: n], a blank line and the [n] bytes of the
    message; and from a reader that delivers those bytes, cut into pieces
    in any way and followed by anything else, [Recv] returns exactly the
    message and leaves exactly what followed.  The length has to fit a
    64-bit [int]. *)
Theorem Send_Recv_round_trip (msg : Channel.bytes) (ws : list Channel.bytes)
    (chunks : list Channel.bytes) (tail : Channel.reader) (rest : Channel.bytes) :
  Z.of_nat (length msg) <= 2 ^ 63 - 1 ->
  let w := fst (Channel.Send msg (Channel.mkWriter ws None)) in
  snd (Channel.Send msg (Channel.mkWriter ws None)) = None /\
  Channel.written w = ws ++ [Channel.frame_header msg; msg] /\
  (concat chunks = concat [Channel.frame_header msg; msg] ++ rest ->
   exists chunks',
     Channel.Recv (chunked chunks tail) =
       Some (Channel.Message msg (chunked chunks' tail)) /\
     concat chunks' = rest).
Proof.
  intros Hfit w. subst w. rewrite Send_written. cbn [fst snd Channel.written].
  split; [reflexivity|]. split; [reflexivity|].
  intros Hc. apply Recv_frame; [exact Hfit|].
  rewrite Hc. cbn [concat]. rewrite app_nil_r, <- app_assoc. reflexivity.
Qed.

Lemma Send_Recv_round_trip_witness :
  exists chunks',
    Channel.Recv (chunked [Channel.B "Content-Le"; Channel.B "ngth: 2";
                           [Channel.CR; Channel.LF; Channel.CR];
                           Channel.LF :: Channel.B "h"; Channel.B "i!"] [])
    = Some (Channel.Message (Channel.B "hi") (chunked chunks' [])) /\
    concat chunks' = Channel.B "!".
Proof.
  destruct (Send_Recv_round_trip (Channel.B "hi") []
              [Channel.B "Content-Le"; Channel.B "ngth: 2";
               [Channel.CR; Channel.LF; Channel.CR];
               Channel.LF :: Channel.B "h"; Channel.B "i!"] [] (Channel.B "!"))
    as (_ & _ & H).
  - vm_compute. discriminate.
  - apply H. vm_compute. reflexivity.
Defined.

(** X19.  Messages sent one after the other are received one after the
    other: from the bytes of two calls of [Send], cut into pieces in any
    way, the first [Recv] returns the first message and the next [Recv], on
    the reader the first one left, returns the second. *)
Theorem two_frames_in_order (m1 m2 : Channel.bytes) (chunks : list Channel.bytes)
    (tail : Channel.reader) :
  Z.of_nat (length m1) <= 2 ^ 63 - 1 -> Z.of_nat (length m2) <= 2 ^ 63 - 1 ->
  concat chunks =
    concat (Channel.written
              (fst (Channel.Send m2
                      (fst (Channel.Send m1 (Channel.mkWriter [] None)))))) ->
  exists rd1 rd2,
    Channel.Recv (chunked chunks tail) = Some (Channel.Message m1 rd1) /\
    Channel.Recv rd1 = Some (Channel.Message m2 rd2) /\
    exists chunks2, rd2 = chunked chunks2 tail /\ concat chunks2 = [].
Proof.
  intros H1 H2. rewrite Send_written. cbn [fst]. rewrite Send_written.
  cbn [fst Channel.written app concat]. rewrite app_nil_r. intros Hc.
  destruct (Recv_frame m1 chunks tail (Channel.frame_header m2 ++ m2) H1)
    as (chunks1 & Hr1 & Hc1).
  { rewrite Hc. rewrite <- ?app_assoc. reflexivity. }
  destruct (Recv_frame m2 chunks1 tail [] H2) as (chunks2 & Hr2 & Hc2).
  { rewrite Hc1. rewrite ?app_nil_r. reflexivity. }
  exists (chunked chunks1 tail), (chunked chunks2 tail).
  split; [exact Hr1|]. split; [exact Hr2|]. exists chunks2. auto.
Qed.

Lemma two_frames_in_order_witness :
  exists rd1 rd2,
    Channel.Recv (chunked [Channel.frame_header (Channel.B "a") ++ Channel.B "a" ++
                           Channel.frame_header (Channel.B "bc") ++ Channel.B "bc"] [])
    = Some (Channel.Message (Channel.B "a") rd1) /\
    Channel.Recv rd1 = Some (Channel.Message (Channel.B "bc") rd2).
Proof.
  destruct (two_frames_in_order (Channel.B "a") (Channel.B "bc")
              [Channel.frame_header (Channel.B "a") ++ Channel.B "a" ++
               Channel.frame_header (Channel.B "bc") ++ Channel.B "bc"] [])
    as (rd1 & rd2 & Ha & Hb & _).
  - vm_compute. discriminate.
  - vm_compute. discriminate.
  - vm_compute. reflexivity.
  - exists rd1, rd2. split; assumption.
Defined.

Section EndOfStream.

Import Channel.

Lemma TrimRight_length_header n :
  TrimRight is_crlf (B "Content-Length: " ++ decimal n) = B "Content-Length: " ++ decimal n.
Proof.
  destruct (decimal_chars n) as (X & c & Hd & Hc & _). rewrite Hd, app_assoc.
  apply TrimRight_last. exact Hc.
Qed.

Lemma header_no_LF n : ~ In LF (B "Content-Length: " ++ decimal n).
Proof.
  intros Hin. apply in_app_or in Hin as [Hin|Hin].
  - cbn in Hin. repeat (destruct Hin as [Hin|Hin]; [discriminate|]). exact Hin.
  - exact (decimal_no_LF n Hin).
Qed.

End EndOfStream.

Section Allocation.

Import Channel.

Lemma LSP_Recv_from_one_turn h rd :
  LSP_Recv_from h rd =
    match header_turn h rd with
    | Return e => Some (Ok (Error e))
    | Break h' rd' => Some (LSP_body h' rd')
    | Continue h' rd' => LSP_Recv_from h' rd'
    end.
Proof.
  unfold LSP_Recv_from. rewrite headers_one_turn.
  destruct (header_turn h rd); reflexivity.
Qed.


Lemma maxAlloc_int : maxAlloc < 2 ^ 63 - 1.
Proof. reflexivity. Qed.

Lemma ReadFull_length rd : forall n acc data rd',
  ReadFull n acc rd = (data, None, rd') -> length data = (length acc + n)%nat.
Proof.
  induction rd as [|[bs|e] rest IH]; intros [|n] acc data rd' H; cbn [ReadFull] in H;
    try (injection H as <- <-; lia); try discriminate.
  destruct (S n <=? length bs)%nat eqn:Hle.
  - injection H as <- <-. apply Nat.leb_le in Hle.
    rewrite length_app, length_take. lia.
  - apply IH in H. rewrite length_app in H. apply Nat.leb_gt in Hle. lia.
Qed.

(** With the message within the limit of the allocation, the two
    descriptions of [Recv] agree. *)
Lemma LSP_body_agrees h rd msg rd' :
  body h rd = Message msg rd' -> Z.of_nat (length msg) <= maxAlloc ->
  LSP_body h rd = Ok (Message msg rd').
Proof.
  unfold body, LSP_body. destruct (h !! B "content-length") as [clen|]; [|discriminate].
  destruct (Atoi clen) as [size|]; [|discriminate].
  destruct (size <? 0) eqn:Hneg; [discriminate|]. apply Z.ltb_ge in Hneg.
  destruct (ReadFull (Z.to_nat size) [] rd) as [[data [e|]] rd0] eqn:Hr; [discriminate|].
  intros H Hfit. injection H as -> ->.
  apply ReadFull_length in Hr. cbn in Hr.
  assert ((maxAlloc <? size) = false) as -> by (apply Z.ltb_ge; lia).
  reflexivity.
Qed.

Lemma LSP_Recv_from_agrees : forall n h rd msg rd',
  (pending rd < n)%nat ->
  Recv_from h rd = Some (Message msg rd') -> Z.of_nat (length msg) <= maxAlloc ->
  LSP_Recv_from h rd = Some (Ok (Message msg rd')).
Proof.
  induction n as [|n IH]; intros h rd msg rd' Hn H Hfit; [lia|].
  rewrite Recv_from_one_turn in H. rewrite LSP_Recv_from_one_turn.
  destruct (header_turn h rd) as [e|h1 rd1|h1 rd1] eqn:Ht.
  - discriminate.
  - injection H as H. now rewrite (LSP_body_agrees _ _ _ _ H Hfit).
  - apply (IH h1 rd1 msg rd'); [|exact H|exact Hfit].
    pose proof (header_turn_pending _ _ _ _ Ht). lia.
Qed.

End Allocation.

(** X20.  The end of the stream inside the header block is taken for the
    end of the block, not reported as [io.EOF]: on a stream that ends
    before any byte has come, [Recv] returns "missing required
    content-length"; on a stream that ends right after a [Content-Length]
    line without its line end, the length counts: a length of 0 yields an
    empty message, a greater one within the limit of the allocation
    [io.EOF] from the read of the payload, one above that limit the panic
    of [make], and one that does not fit an [int] "invalid
    content-length". *)
Theorem Recv_at_end_of_stream (chunks : list Channel.bytes) :
  (concat chunks = [] ->
     Channel.LSP_Recv (chunked chunks []) =
       Some (Ok (Channel.Error Channel.MissingContentLength))) /\
  (forall n,
     concat chunks = Channel.B "Content-Length: " ++ Channel.decimal n ->
     Channel.LSP_Recv (chunked chunks []) =
       Some (if Z.of_nat n <=? Channel.maxAlloc then
               Ok (match n with
                   | O => Channel.Message [] []
                   | S _ => Channel.Error Channel.EOF
                   end)
             else if Z.of_nat n <=? 2 ^ 63 - 1 then
               Panic "makeslice: len out of range"
             else Ok (Channel.Error Channel.InvalidContentLength))).
Proof.
  split.
  - intros Hc. pose proof (ReadString_eof chunks []) as Hr.
    rewrite Hc in Hr. specialize (Hr (fun H => H)).
    unfold Channel.LSP_Recv. rewrite LSP_Recv_from_one_turn. unfold Channel.header_turn.
    rewrite Hr. reflexivity.
  - intros n Hc. pose proof (ReadString_eof chunks []) as Hr.
    rewrite Hc in Hr. specialize (Hr (header_no_LF n)). cbn [app] in Hr.
    unfold Channel.LSP_Recv. rewrite LSP_Recv_from_one_turn. unfold Channel.header_turn.
    rewrite Hr, TrimRight_length_header, SplitN2_header.
    change (Channel.B "Content-Length: " ++ Channel.decimal n)
      with ("C"%char :: Channel.B "ontent-Length: " ++ Channel.decimal n).
    cbv iota beta. rewrite TrimSpace_decimal.
    unfold Channel.LSP_body.
    change (Channel.ToLower (Channel.B "Content-Length")) with (Channel.B "content-length").
    rewrite lookup_insert_eq, Atoi_decimal_fits.
    pose proof maxAlloc_int as Hm.
    destruct (Z.of_nat n <=? Channel.maxAlloc) eqn:E1.
    + apply Z.leb_le in E1.
      assert ((Z.of_nat n <=? 2 ^ 63 - 1) = true) as -> by (apply Z.leb_le; lia).
      assert ((Z.of_nat n <? 0) = false) as -> by (apply Z.ltb_ge; lia).
      assert ((Channel.maxAlloc <? Z.of_nat n) = false) as -> by (apply Z.ltb_ge; lia).
      rewrite Nat2Z.id. destruct n; reflexivity.
    + apply Z.leb_gt in E1.
      destruct (Z.of_nat n <=? 2 ^ 63 - 1) eqn:E2; [|reflexivity].
      assert ((Z.of_nat n <? 0) = false) as -> by (apply Z.ltb_ge; lia).
      assert ((Channel.maxAlloc <? Z.of_nat n) = true) as -> by (apply Z.ltb_lt; lia).
      reflexivity.
Qed.

Lemma Recv_at_end_of_stream_witness :
  Channel.LSP_Recv (chunked [[]; []] [])
  = Some (Ok (Channel.Error Channel.MissingContentLength)).
Proof.
  apply (proj1 (Recv_at_end_of_stream [[]; []])). reflexivity.
Defined.

(* ===================================================================== *)
(** ** Properties of jcall *)
(* ===================================================================== *)

Section Specs.

Import Jcall.

Lemma newSpecs_pairs notify n :
  forall args, length args = (2 * n)%nat ->
  exists specs,
    newSpecs notify args = Ok specs /\ length specs = n /\
    Forall (fun sp => Jcall.Notify sp = notify) specs /\
    (forall k sp, specs !! k = Some sp ->
       args !! (2 * k)%nat = Some (Method sp) /\
       exists p, args !! (2 * k + 1)%nat = Some p /\ Params sp = param p).
Proof.
  induction n as [|n IH]; intros args Hlen.
  - destruct args; [|discriminate]. exists [].
    split; [reflexivity|]. split; [reflexivity|]. split; [constructor|].
    intros k sp H. discriminate.
  - destruct args as [|name [|p rest]]; cbn in Hlen; try lia.
    destruct (IH rest) as (specs & Hs & Hl & Hn & Hk); [lia|].
    exists (mkSpec name (param p) notify :: specs).
    cbn [newSpecs]. rewrite Hs. split; [reflexivity|]. split; [cbn; lia|].
    split; [constructor; [reflexivity|exact Hn]|].
    intros [|k] sp H.
    + cbn in H. injection H as <-. cbn. eauto.
    + cbn in H. destruct (Hk k sp H) as (H1 & q & H2 & H3).
      replace (2 * S k)%nat with (S (S (2 * k))) by lia.
      replace (S (S (2 * k)) + 1)%nat with (S (S (2 * k + 1))) by lia.
      cbn. split; [exact H1|]. eauto.
Qed.

Lemma newSpecs_odd notify n :
  forall args, length args = (2 * n + 1)%nat ->
  exists what, newSpecs notify args = Panic what.
Proof.
  induction n as [|n IH]; intros args Hlen.
  - destruct args as [|a [|b rest]]; cbn in Hlen; try lia. cbn. eauto.
  - destruct args as [|a [|b rest]]; cbn in Hlen; try lia.
    destruct (IH rest) as [w Hw]; [lia|]. cbn [newSpecs]. rewrite Hw. eauto.
Qed.

End Specs.

(** X21.  [newSpecs] pairs its arguments: from an even number of them it
    makes one spec per pair, in order, with the method from the first of
    the pair, the parameters from the second (nil when it is empty) and
    the notify flag as given; on an odd number it panics with an index out
    of range.  The test [main] makes on the number of command-line
    arguments lets through only lists whose part after the address is
    even and not empty, so under that test [newSpecs] returns at least one
    spec. *)
Theorem newSpecs_under_main_check (notify : bool) (addr : string) (args : list string) :
  (Jcall.arguments_ok (length (addr :: args)) = true ->
     exists specs,
       Jcall.newSpecs notify args = Ok specs /\
       specs <> [] /\ (2 * length specs = length args)%nat /\
       Forall (fun sp => Jcall.Notify sp = notify) specs /\
       (forall k sp, specs !! k = Some sp ->
          args !! (2 * k)%nat = Some (Jcall.Method sp) /\
          exists p, args !! (2 * k + 1)%nat = Some p /\
                    Jcall.Params sp = Jcall.param p)) /\
  (Nat.Odd (length args) -> exists what, Jcall.newSpecs notify args = Panic what).
Proof.
  split.
  - unfold Jcall.arguments_ok. cbn [length]. intros H.
    apply negb_true_iff, orb_false_iff in H as [H1 H2].
    apply Nat.ltb_ge in H1. apply Nat.eqb_neq in H2.
    assert (exists n, length args = (2 * n)%nat /\ (1 <= n)%nat) as (n & Hn & Hpos).
    { destruct (Nat.Even_or_Odd (length args)) as [[n Hn]|[n Hn]].
      - exists n. split; [exact Hn|lia].
      - exfalso. apply H2. rewrite Hn.
        replace (S (2 * n + 1)) with (0 + (n + 1) * 2)%nat by lia.
        rewrite Nat.Div0.mod_add. reflexivity. }
    destruct (newSpecs_pairs notify n args Hn) as (specs & Hs & Hl & Hf & Hk).
    exists specs. split; [exact Hs|]. split; [destruct specs; [cbn in Hl; lia|discriminate]|].
    split; [lia|]. split; [exact Hf|exact Hk].
  - intros [n Hn]. apply (newSpecs_odd notify n). exact Hn.
Qed.

Lemma newSpecs_under_main_check_witness :
  exists specs,
    Jcall.newSpecs false ["add"; "[2,3]"; "ping"; ""]%string = Ok specs /\ specs <> [].
Proof.
  destruct (proj1 (newSpecs_under_main_check false "localhost:8080"
                     ["add"; "[2,3]"; "ping"; ""]%string))
    as (specs & H1 & H2 & _).
  - reflexivity.
  - exists specs. split; assumption.
Defined.

Section Issue.

Variable Client : Type.
Variable Response : Type.
Variable Call : Client -> string -> option string -> Client * (Response + goerror).
Variable Notify_ : Client -> string -> option string -> Client * option goerror.

Lemma issue_length c rsps specs c' out :
  Jcall.issue Client Response Call Notify_ c rsps specs = (c', inl out) ->
  length out =
    (length rsps + length (List.filter (fun sp => negb (Jcall.Notify sp)) specs))%nat.
Proof.
  revert c rsps. induction specs as [|sp rest IH]; intros c rsps; cbn [Jcall.issue List.filter].
  - intros H. injection H as _ <-. cbn. lia.
  - destruct (Jcall.Notify sp); cbn [negb].
    + destruct (Notify_ c _ _) as [c1 [e|]]; [discriminate|]. apply IH.
    + destruct (Call c _ _) as [c1 [rsp|e]]; [|discriminate].
      intros H. apply IH in H. rewrite H, length_app. cbn. lia.
Qed.

End Issue.

(** X22.  When [issueSequential] succeeds it returns one response for
    every spec that is not a notification, and none for the notifications;
    so with the specs of [newSpecs], which all carry the same notify flag,
    it returns either a response for every pair of arguments or none at
    all.  (When a call or a notification fails, the error is returned and
    the responses gathered so far are not.) *)
Theorem issueSequential_responses (Client Response : Type)
    (Call : Client -> string -> option string -> Client * (Response + goerror))
    (Notify_ : Client -> string -> option string -> Client * option goerror)
    (c c' : Client) (specs : list Jcall.Spec) (rsps : list Response) :
  Jcall.issueSequential Client Response Call Notify_ c specs = (c', inl rsps) ->
  length rsps = length (List.filter (fun sp => negb (Jcall.Notify sp)) specs) /\
  (forall notify, Forall (fun sp => Jcall.Notify sp = notify) specs ->
     length rsps = if notify then 0%nat else length specs).
Proof.
  intros H. apply issue_length in H. cbn in H. split; [exact H|].
  intros notify Hall. rewrite H. clear H.
  induction Hall as [|sp rest Hsp _ IH]; [now destruct notify|].
  cbn [List.filter length]. rewrite Hsp. destruct notify; cbn [negb length]; lia.
Qed.

Lemma issueSequential_responses_witness :
  length [0%nat; 2%nat] =
  length (List.filter (fun sp => negb (Jcall.Notify sp))
            [Jcall.mkSpec "add" None false; Jcall.mkSpec "log" None true;
             Jcall.mkSpec "sub" None false]).
Proof.
  exact (proj1 (issueSequential_responses nat nat counting_call counting_notify
                  0%nat 3%nat
                  [Jcall.mkSpec "add" None false; Jcall.mkSpec "log" None true;
                   Jcall.mkSpec "sub" None false]
                  [0%nat; 2%nat] eq_refl)).
Defined.

(* ===================================================================== *)
(** ** The end of the reader, and a writer that fails *)
(* ===================================================================== *)

(** X23.  When the reader leaves its loop on a fatal decode failure it
    empties the queue: batches that were received but not yet taken by the
    scheduler are never processed, later input is not read, and the
    scheduler's next call returns the recorded error. *)
Theorem queue_dropped_at_exit (s : Server) (ds rest : list decoded)
    (d : decoded) (e : goerror) :
  closer s <> None ->
  Forall goes_on ds ->
  derr d = Some e -> isRecoverableJSONError (Some e) = false ->
  let s' := fst (read (ds ++ d :: rest) s) in
  inq s' = [] /\ err s' = Some e /\ closer s' = None /\
  nextRequest s' = Failed (Some e) /\
  s' = fst (read (ds ++ [d]) s).
Proof.
  intros Hc Hds Hd Hr. revert s Hc.
  induction Hds as [|d0 ds Hd0 _ IH]; intros s Hc.
  - cbn [app read]. unfold read_turn. rewrite Hd, Hr. cbn.
    unfold nextRequest, read_exit, stop. destruct (closer s); [|congruence].
    cbn. repeat split.
  - cbn [app read].
    destruct (read_turn_goes_on d0 s Hd0) as (H1 & H2 & _).
    destruct (read_turn d0 s) as [s1 again]. cbn in H1, H2. subst again.
    apply IH. congruence.
Qed.

Lemma queue_dropped_at_exit_witness :
  inq (fst (read ([mkDecoded None [call_add]] ++ eof :: [mkDecoded None [call_fail]]) demo)) = [].
Proof.
  refine (proj1 (queue_dropped_at_exit demo [mkDecoded None [call_add]]
                   [mkDecoded None [call_fail]] eof io_EOF _ _ eq_refl eq_refl)).
  - cbn. discriminate.
  - constructor; [right; reflexivity|constructor].
Defined.

(** X24.  [Send] stops at the first write that fails: on a writer that
    takes [k] more writes, the writes made are the first [k] of the header
    and the message, and [Send] reports an error exactly when [k] is less
    than 2; in particular the message is never written without its
    header. *)
Theorem Send_stops_at_failure (msg : Channel.bytes) (ws : list Channel.bytes) (k : nat) :
  let r := Channel.Send msg (Channel.mkWriter ws (Some k)) in
  Channel.written (fst r) = ws ++ take k [Channel.frame_header msg; msg] /\
  (snd r = None <-> (2 <= k)%nat) /\
  Channel.room (fst r) = Some (k - 2)%nat.
Proof.
  destruct k as [|[|k]]; unfold Channel.Send, Channel.Write;
    cbn [Channel.room Channel.written fst snd].
  - cbn. rewrite app_nil_r. repeat split; [discriminate|intros H; exfalso; lia].
  - split; [reflexivity|]. split; [|reflexivity].
    split; [discriminate|intros H; exfalso; lia].
  - split; [|split; [split; intros; [lia|reflexivity]|f_equal; lia]].
    change (take (S (S k)) [Channel.frame_header msg; msg])
      with (Channel.frame_header msg :: msg :: take k []).
    rewrite take_nil, <- app_assoc. reflexivity.
Qed.

(* ===================================================================== *)
(** ** The reply to a batch, by its requests *)
(* ===================================================================== *)

Section Silent.

Lemma resolve_all_origin s u next t :
  In t (snd (resolve_all s u next)) ->
  exists u', t = snd (resolve s u' (req t)) /\ In (req t) next.
Proof.
  revert u. induction next as [|r rest IH]; intros u; [intros []|].
  cbn [resolve_all]. pose proof (resolve_req s u r) as Hr.
  destruct (resolve s u r) as [u1 t0] eqn:Hres. cbn [snd] in Hr.
  specialize (IH u1). destruct (resolve_all s u1 rest) as [u2 ts]. cbn [snd] in *.
  intros [<-|Hin].
  - exists u. rewrite Hr, Hres. split; [reflexivity|left; reflexivity].
  - destruct (IH Hin) as (u' & H1 & H2). exists u'. split; [exact H1|right; exact H2].
Qed.

Lemma resolve_silent s u r :
  ID r = None -> silent_notification s r ->
  exists h, snd (resolve s u r) = mkTask (Some h) r None None /\
    ((exists e, h (reqctx s (mkRequest None (M r) (P r))) (mkRequest None (M r) (P r))
                = CallErr e) \/
     (exists j, h (reqctx s (mkRequest None (M r) (P r))) (mkRequest None (M r) (P r))
                = CallOk (Value j))).
Proof.
  intros Hid (Hv & Hm & h & Hh & Hout). exists h. split; [|exact Hout].
  unfold resolve, id_string. rewrite Hv, Hid. cbn.
  apply String.eqb_neq in Hm. rewrite Hm, Hh. reflexivity.
Qed.

Lemma run_silent s s1 r h t' :
  reqctx s1 = reqctx s -> ID r = None ->
  ((exists e, h (reqctx s (mkRequest None (M r) (P r))) (mkRequest None (M r) (P r))
              = CallErr e) \/
   (exists j, h (reqctx s (mkRequest None (M r) (P r))) (mkRequest None (M r) (P r))
              = CallOk (Value j))) ->
  run_task s1 (mkTask (Some h) r None None) = Ok t' -> terr t' = None.
Proof.
  intros Hctx Hid Hout. unfold run_task, dispatch. cbn. rewrite Hctx, Hid.
  destruct Hout as [[e He]|[j Hj]].
  - rewrite He. cbn. intros H. now injection H as <-.
  - rewrite Hj. cbn. intros H. now injection H as <-.
Qed.

Lemma responses_ids ts :
  map rID (responses ts) =
    map (fun t => ID (req t)) (List.filter (fun t => negb (quiet t)) ts).
Proof.
  induction ts as [|t rest IH]; [reflexivity|].
  cbn [responses List.filter].
  destruct (response_of t) as [r|] eqn:Hr.
  - assert (quiet t = false) as Hq.
    { destruct (quiet t) eqn:Hq; [|reflexivity].
      apply response_of_quiet in Hq. congruence. }
    rewrite Hq. cbn [negb map]. rewrite IH. f_equal.
    unfold response_of in Hr.
    destruct (ID (req t)), (terr t) as [[e|c|k text]|];
      try discriminate; injection Hr as <-; reflexivity.
  - apply response_of_quiet in Hr. rewrite Hr. cbn [negb]. exact IH.
Qed.

Lemma answered_requests ts :
  (forall t, In t ts -> ID (req t) = None -> terr t = None) ->
  map (fun t => ID (req t)) (List.filter (fun t => negb (quiet t)) ts) =
  map ID (List.filter (fun r => negb (notification r)) (map req ts)).
Proof.
  induction ts as [|t rest IH]; intros H; [reflexivity|].
  cbn [List.filter map].
  assert (quiet t = notification (req t)) as ->.
  { unfold quiet, notification. destruct (ID (req t)) eqn:Hi; [reflexivity|].
    now rewrite (H t (or_introl eq_refl) Hi). }
  specialize (IH (fun t0 Hin => H t0 (or_intror Hin))).
  destruct (notification (req t)); cbn [negb map]; rewrite IH; reflexivity.
Qed.

End Silent.

(** C5, as the code has it.  Take a running server with a batch of [k]
    requests at the head of its queue, [n] of them notifications, and no
    handler that panics.  The scheduler takes the batch and the closure
    runs to its end.  With [q] the number of notifications that end with no
    error recorded ([q <= n]): nothing is written when [q = k], and
    otherwise one message of exactly [k - q] responses is written, the
    responses being those of the requests that are not such notifications,
    in the order of the batch.  When every notification of the batch has
    an accepted version marker and a method the assigner knows, and its
    handler returns an error or a value that marshals, then [q = n]: the
    message holds exactly [k - n] responses, one for each request that is
    not a notification, under that request's ID and in the order of the
    batch, and nothing is written when [n = k]. *)
Theorem batch_reply_size (s : Server) (c : Conn) (next : jrequests)
    (rest : list jrequests) :
  closer s = Some c -> inq s = next :: rest ->
  (forall t what,
     In t (snd (resolve_all s (used s) next)) -> run_task s t <> Panic what) ->
  exists s1 ts ts' s2,
    nextRequest s = Next s1 ts /\ wire s1 = wire s /\
    run_tasks s1 ts = Ok ts' /\ map req ts' = next /\
    complete s1 ts = Ok s2 /\
    let k := length next in
    let n := count notification next in
    let q := count quiet ts' in
    (q <= n <= k)%nat /\
    (q = k -> wire s2 = wire s) /\
    (q <> k ->
       wire s2 = wire s ++ [responses ts'] /\
       length (responses ts') = (k - q)%nat) /\
    map rID (responses ts') =
      map (fun t => ID (req t)) (List.filter (fun t => negb (quiet t)) ts') /\
    ((forall r, In r next -> ID r = None -> silent_notification s r) ->
       q = n /\
       length (responses ts') = (k - n)%nat /\
       map rID (responses ts') =
         map ID (List.filter (fun r => negb (notification r)) next) /\
       (n = k -> wire s2 = wire s) /\
       (n <> k -> wire s2 = wire s ++ [responses ts'])).
Proof.
  intros Hc Hq Hno.
  pose proof (resolve_all_req s (used s) next) as Hreq.
  assert (forall t, In t (snd (resolve_all s (used s) next)) ->
            exists u', t = snd (resolve s u' (req t)) /\ In (req t) next) as Horigin
    by (intros t; apply resolve_all_origin).
  unfold nextRequest. rewrite Hc, Hq.
  destruct (resolve_all s (used s) next) as [u ts]. cbn [snd] in *.
  set (s1 := set_used u (set_inq rest s)).
  assert (reqctx s1 = reqctx s) as Hctx by reflexivity.
  destruct (run_tasks_ok s ts Hno) as (ts' & Hrun & Hm).
  rewrite <- (run_tasks_ext s s1 ts Hctx) in Hrun.
  destruct (complete_wire s1 ts ts' Hrun) as (s2 & Hs2 & Hw).
  exists s1, ts, ts', s2.
  split; [reflexivity|]. split; [reflexivity|]. split; [exact Hrun|].
  assert (map req ts' = next) as Hm' by congruence.
  split; [exact Hm'|]. split; [exact Hs2|].
  pose proof (responses_length ts') as Hlen.
  pose proof (count_quiet_le ts') as Hle. rewrite Hm' in Hle.
  pose proof (count_le_length notification next) as Hnk.
  assert (length ts' = length next) as Hk
    by (rewrite <- Hm'; now rewrite length_map).
  assert (count quiet ts' = length next -> wire s2 = wire s) as Hnone.
  { intros Heq. rewrite Hw.
    destruct (responses ts'); [now rewrite app_nil_r|cbn in Hlen; lia]. }
  assert (count quiet ts' <> length next -> wire s2 = wire s ++ [responses ts']) as Hsome.
  { intros Hne. rewrite Hw. destruct (responses ts'); [cbn in Hlen; lia|reflexivity]. }
  cbn zeta. split; [split; [exact Hle|exact Hnk]|].
  split; [exact Hnone|]. split; [intros Hne; split; [exact (Hsome Hne)|lia]|].
  split; [apply responses_ids|].
  intros Hsilent.
  assert (forall t', In t' ts' -> ID (req t') = None -> terr t' = None) as Hquiet.
  { intros t' Hin Hid.
    destruct (run_tasks_origin s1 ts ts' t' Hrun Hin) as (t & Ht & Hone).
    destruct (Horigin t Ht) as (u' & Hres & Hnext).
    pose proof (run_task_req _ _ _ Hone) as Hr. rewrite Hr in Hid.
    destruct (resolve_silent s u' (req t) Hid (Hsilent _ Hnext Hid)) as (h & Hh & Hout).
    rewrite Hres, Hh in Hone. cbn [req] in Hone.
    exact (run_silent s s1 (req t) h t' Hctx Hid Hout Hone). }
  assert (count quiet ts' = count notification next) as Hqn
    by (rewrite (count_quiet_eq ts' Hquiet), Hm'; reflexivity).
  split; [exact Hqn|]. split; [lia|]. split.
  - rewrite responses_ids, (answered_requests ts' Hquiet), Hm'. reflexivity.
  - split; intros H; [apply Hnone|apply Hsome]; lia.
Qed.

Lemma batch_reply_size_witness :
  exists s1 ts ts' s2,
    nextRequest (set_inq [[call_add; mkJrequest "2.0" None "fail" ""]] demo) = Next s1 ts /\
    run_tasks s1 ts = Ok ts' /\ complete s1 ts = Ok s2 /\
    length (responses ts') = 1%nat /\
    map rID (responses ts') = [Some "1"%string].
Proof.
  destruct (batch_reply_size
              (set_inq [[call_add; mkJrequest "2.0" None "fail" ""]] demo) 0%nat
              [call_add; mkJrequest "2.0" None "fail" ""] [] eq_refl eq_refl)
    as (s1 & ts & ts' & s2 & H1 & _ & H2 & _ & H4 & _ & _ & _ & _ & H5).
  - intros t what Hin.
    vm_compute in Hin. destruct Hin as [<-|[<-|[]]]; vm_compute; discriminate.
  - destruct H5 as (_ & H6 & H7 & _).
    + intros r [<-|[<-|[]]] Hid; [discriminate|].
      split; [reflexivity|]. split; [discriminate|].
      exists (fun _ _ => CallErr (EPlain KOther "out of luck")).
      split; [reflexivity|]. left. eexists. reflexivity.
    + exists s1, ts, ts', s2. repeat split; assumption.
Defined.

(** C5, refuted as stated: a batch of one notification ([k = n = 1]) for a
    method that does not exist, decoded without any batch-level error, is
    answered with one message holding one response, where the claim has no
    message ([k - n = 0] responses). *)
Lemma notification_error_is_sent :
  reply (Array [notify_nope]) demo =
    [[error_response None (Errorf E_MethodNotFound "no such method %q" ["nope"%string])]] /\
  length [notify_nope] = count notification [notify_nope] /\
  reply (Array [notify_nope]) demo <> [].
Proof. split; [vm_compute; reflexivity|]. split; [reflexivity|]. vm_compute. discriminate. Qed.

(* ===================================================================== *)
(** ** The rules of Recv *)
(* ===================================================================== *)

Section LSPRules.

Import Channel.








End LSPRules.

(** X25.  Round trip, with the allocation: [Send] writes the header, a
    blank line and the message; for a message within the limit of the
    allocation, [Recv] on a reader that delivers those bytes in arbitrary
    pieces, followed by anything, returns exactly that message without a
    panic, and leaves exactly what followed in the reader. *)
Theorem LSP_round_trip (msg : Channel.bytes) (ws : list Channel.bytes)
    (chunks : list Channel.bytes) (tail : Channel.reader) (rest : Channel.bytes) :
  Z.of_nat (length msg) <= Channel.maxAlloc ->
  Channel.Send msg (Channel.mkWriter ws None) =
    (Channel.mkWriter (ws ++ [Channel.frame_header msg; msg]) None, None) /\
  (concat chunks = Channel.frame_header msg ++ msg ++ rest ->
   exists chunks',
     Channel.LSP_Recv (chunked chunks tail) =
       Some (Ok (Channel.Message msg (chunked chunks' tail))) /\
     concat chunks' = rest).
Proof.
  intros Hfit. pose proof maxAlloc_int as Hm. split.
  - unfold Channel.Send, Channel.Write. cbn. rewrite <- app_assoc. reflexivity.
  - intros Hc.
    destruct (Recv_frame msg chunks tail rest) as (chunks' & Hr & Hrest);
      [lia|exact Hc|].
    exists chunks'. split; [|exact Hrest].
    unfold Channel.LSP_Recv.
    apply (LSP_Recv_from_agrees (S (Channel.pending (chunked chunks tail))));
      [lia|exact Hr|exact Hfit].
Qed.

Lemma LSP_round_trip_witness :
  exists chunks',
    Channel.LSP_Recv
      (chunked [Channel.B "Content-Length: 2"; [Channel.CR; Channel.LF; Channel.CR];
                Channel.LF :: Channel.B "h"; Channel.B "i!"] []) =
      Some (Ok (Channel.Message (Channel.B "hi") (chunked chunks' []))) /\
    concat chunks' = Channel.B "!".
Proof.
  apply (proj2 (LSP_round_trip (Channel.B "hi") [] _ [] (Channel.B "!")
                  ltac:(vm_compute; discriminate))).
  reflexivity.
Defined.
